(** * The schema model of [cmd/migrate/table_info.go]

    A shallow embedding of the table-information builder ([getColumnInfo],
    [getTableInfo]) and of the reverse-link pass ([validateAndGetReverse],
    [populateReferencedByColumns]), with the properties of the schema model
    stated and proved over it.

    Go maps with string keys are [gmap string _]; a map used as a set is a
    [gset string]; slices are lists; a pointer that may be nil is an
    [option].  A call can return, fail an assertion or panic: the three
    endings are the constructors of [outcome]. *)

From Stdlib Require Import ZArith Ascii String.
From stdpp Require Import gmap strings list fin_maps sorting.

Local Open Scope string_scope.

(** ** Endings of a call *)

Inductive outcome (A : Type) : Type :=
| Returned (a : A)
| AssertFailed
| NilDereference.
Arguments Returned {A} a.
Arguments AssertFailed {A}.
Arguments NilDereference {A}.

#[export] Instance outcome_bind : MBind outcome := fun A B k x =>
  match x with
  | Returned a => k a
  | AssertFailed => AssertFailed
  | NilDereference => NilDereference
  end.

#[export] Instance outcome_ret : MRet outcome := fun A a => Returned a.

(** A call has aborted when it did not return. *)
Definition aborted {A : Type} (x : outcome A) : Prop :=
  match x with
  | Returned _ => False
  | _ => True
  end.

(** Modelled from the spec: [x.AssertTrue] lives in package [x], which is not
    part of the sources at hand.  The spec calls it a hard assertion whose
    failure is fatal and unrecoverable. *)
Definition AssertTrue (b : bool) : outcome unit :=
  if b then Returned tt else AssertFailed.

(** Left-to-right loop over a slice whose body may abort. *)
Fixpoint forEach {S A : Type} (body : S -> A -> outcome S) (s : S) (l : list A)
  : outcome S :=
  match l with
  | [] => Returned s
  | a :: l' => s' ← body s a; forEach body s' l'
  end.

(** ** Enumeration order of [range] over a map

    [range] over a Go map yields every entry once, in an order the language
    leaves open.  The order is a parameter of the model: any function that
    lists the entries of a map. *)

Class GoRange : Type := {
  range : forall A : Type, gmap string A -> list (string * A);
  range_perm : forall (A : Type) (m : gmap string A), range A m ≡ₚ map_to_list m
}.
Arguments range {_ _} m.

(** The order in which [map_to_list] happens to list the entries. *)
#[export] Instance range_canonical : GoRange :=
  {| range := fun A m => map_to_list m;
     range_perm := fun A m => reflexivity _ |}.

(** Entries by increasing, respectively decreasing, key length. *)
Definition shorter_key {A : Type} (x y : string * A) : Prop :=
  (String.length x.1 <= String.length y.1)%nat.
Definition longer_key {A : Type} (x y : string * A) : Prop :=
  (String.length y.1 <= String.length x.1)%nat.

#[export] Instance shorter_key_dec {A} (x y : string * A) : Decision (shorter_key x y).
Proof. unfold shorter_key. apply _. Defined.
#[export] Instance longer_key_dec {A} (x y : string * A) : Decision (longer_key x y).
Proof. unfold longer_key. apply _. Defined.

Definition range_shortest_first : GoRange :=
  {| range := fun A m => merge_sort shorter_key (map_to_list m);
     range_perm := fun A m => merge_sort_Permutation shorter_key (map_to_list m) |}.

Definition range_longest_first : GoRange :=
  {| range := fun A m => merge_sort longer_key (map_to_list m);
     range_perm := fun A m => merge_sort_Permutation longer_key (map_to_list m) |}.

(** ** Data model *)

Inductive KeyType : Type := NONE | PRIMARY | MULTI.

(** [type DataType int]; the zero value is [0]. *)
Definition DataType : Type := Z.

Record ColumnInfo : Type := {
  name : string;
  keyType : KeyType;
  dataType : DataType
}.

Record ConstraintPart : Type := {
  tableName : string;
  columnName : string;
  remoteTableName : string;
  remoteColumnName : string
}.

Record ForeignKeyConstraint : Type := {
  parts : list ConstraintPart
}.

Record TableInfo : Type := {
  tiTableName : string;
  columns : gmap string ColumnInfo;
  referencedTables : gset string;
  foreignKeyConstraints : gmap string ForeignKeyConstraint;
  constraintSources : list ForeignKeyConstraint
}.

Record ColumnOutput : Type := {
  fieldName : string;
  coDataType : string;
  coKeyType : string
}.

#[export] Instance KeyType_eq_dec : EqDecision KeyType.
Proof. solve_decision. Defined.
#[export] Instance ConstraintPart_eq_dec : EqDecision ConstraintPart.
Proof. solve_decision. Defined.
#[export] Instance ForeignKeyConstraint_eq_dec : EqDecision ForeignKeyConstraint.
Proof. solve_decision. Defined.

(** ** [strings.HasPrefix] and [strings.Contains] *)

Fixpoint HasPrefix (s prefix : string) {struct prefix} : bool :=
  match prefix with
  | EmptyString => true
  | String c prefix' =>
      match s with
      | EmptyString => false
      | String d s' => Ascii.eqb c d && HasPrefix s' prefix'
      end
  end.

Fixpoint Contains (s substr : string) : bool :=
  HasPrefix s substr ||
  match s with
  | EmptyString => false
  | String _ s' => Contains s' substr
  end.

(** ** [getColumnInfo] *)

Section Builder.
Context `{R : GoRange}.

(** The lookup table from vendor type prefixes to value types is declared
    in another file of the package; it is a parameter here. *)
Variable mysqlTypePrefixToGoType : gmap string DataType.

(** The [for .. range] loop with its [break]: the first entry, in the order
    of enumeration, whose key is a prefix of the type string. *)
Fixpoint firstPrefix (dataTypeString : string) (entries : list (string * DataType))
  (current : DataType) : DataType :=
  match entries with
  | [] => current
  | (prefix, goType) :: entries' =>
      if HasPrefix dataTypeString prefix then goType
      else firstPrefix dataTypeString entries' current
  end.

Definition getColumnInfo (columnOutput : ColumnOutput) : ColumnInfo :=
  let columnInfo := {| name := ""; keyType := NONE; dataType := 0%Z |} in
  let columnInfo :=
    {| name := fieldName columnOutput;
       keyType := keyType columnInfo;
       dataType := dataType columnInfo |} in
  let columnInfo :=
    if String.eqb (coKeyType columnOutput) "PRI" then
      {| name := name columnInfo; keyType := PRIMARY; dataType := dataType columnInfo |}
    else if String.eqb (coKeyType columnOutput) "MUL" then
      {| name := name columnInfo; keyType := MULTI; dataType := dataType columnInfo |}
    else columnInfo in
  {| name := name columnInfo;
     keyType := keyType columnInfo;
     dataType := firstPrefix (coDataType columnOutput)
                   (range mysqlTypePrefixToGoType) (dataType columnInfo) |}.

End Builder.

(** ** The metadata source

    [error] is the message of a Go error value.  [pool.Query] followed by
    [rows.Next] and [rows.Scan] is seen from the outside: a query either fails
    or yields rows, and every row either decodes into its fields or fails to
    decode.  The two queries of [getTableInfo] decode rows of different shape,
    hence the two fields. *)

Definition error : Type := string.

Record DB : Type := {
  QueryColumns : string -> error + list (error + ColumnOutput);
  QueryKeyUsage : string -> error + list (error + (string * string * string * string))
}.

Definition dquote : string := String (ascii_of_nat 34) EmptyString.
Definition newline : string := String (ascii_of_nat 10) EmptyString.
Definition tab : string := String (ascii_of_nat 9) EmptyString.

Definition columnsQuery (table : string) : string :=
  "select COLUMN_NAME,DATA_TYPE," +:+ newline +:+
  "COLUMN_KEY from INFORMATION_SCHEMA.COLUMNS where TABLE_NAME = " +:+
  dquote +:+ table +:+ dquote.

Definition foreignKeysQuery (table : string) : string :=
  "select COLUMN_NAME, CONSTRAINT_NAME, REFERENCED_TABLE_NAME," +:+ newline +:+
  tab +:+ tab +:+
  "REFERENCED_COLUMN_NAME from INFORMATION_SCHEMA.KEY_COLUMN_USAGE where TABLE_NAME = " +:+
  dquote +:+ table +:+ dquote +:+ newline +:+
  "        AND REFERENCED_TABLE_NAME IS NOT NULL".

(** ** [getTableInfo] *)

Section TableBuilder.
Context `{R : GoRange}.
Variable mysqlTypePrefixToGoType : gmap string DataType.

(** The loop over the column rows. *)
Fixpoint scanColumns (table : string) (rows : list (error + ColumnOutput))
  (tableInfo : TableInfo) : error + TableInfo :=
  match rows with
  | [] => inr tableInfo
  | inl err :: _ =>
      inl ("unable to scan table description result for table " +:+ table +:+
           ": " +:+ err)
  | inr columnOutput :: rows' =>
      scanColumns table rows'
        {| tiTableName := tiTableName tableInfo;
           columns := <[fieldName columnOutput :=
                          getColumnInfo mysqlTypePrefixToGoType columnOutput]>
                        (columns tableInfo);
           referencedTables := referencedTables tableInfo;
           foreignKeyConstraints := foreignKeyConstraints tableInfo;
           constraintSources := constraintSources tableInfo |}
  end.

(** The body of the loop over the key usage rows, once the row is decoded.
    A pointer to a constraint of the table is the name under which the
    constraint is stored; [None] is the nil pointer. *)
Definition addKeyUsage (table : string) (tableInfo : TableInfo)
  (row : string * string * string * string) : outcome TableInfo :=
  let '(columnName, constraintName, referencedTableName, referencedColumnName) := row in
  let tableInfo :=
    {| tiTableName := tiTableName tableInfo;
       columns := columns tableInfo;
       referencedTables := {[ referencedTableName ]} ∪ referencedTables tableInfo;
       foreignKeyConstraints := foreignKeyConstraints tableInfo;
       constraintSources := constraintSources tableInfo |} in
  (* var constraint: a nil pointer to a constraint *)
  let constraint : option string := None in
  (* if constraint, ok := ...; !ok { ... }: the [:=] declares a second
     [constraint], local to the if statement; the one above is not assigned *)
  let tableInfo :=
    match foreignKeyConstraints tableInfo !! constraintName with
    | Some _ => tableInfo
    | None =>
        {| tiTableName := tiTableName tableInfo;
           columns := columns tableInfo;
           referencedTables := referencedTables tableInfo;
           foreignKeyConstraints :=
             <[constraintName := {| parts := [] |}]> (foreignKeyConstraints tableInfo);
           constraintSources := constraintSources tableInfo |}
    end in
  (* constraint.parts = append(constraint.parts, &ConstraintPart{...}) *)
  match constraint with
  | None => NilDereference
  | Some key =>
      match foreignKeyConstraints tableInfo !! key with
      | None => NilDereference
      | Some c =>
          Returned
            {| tiTableName := tiTableName tableInfo;
               columns := columns tableInfo;
               referencedTables := referencedTables tableInfo;
               foreignKeyConstraints :=
                 <[key := {| parts := parts c ++
                               [ {| tableName := table;
                                    columnName := columnName;
                                    remoteTableName := referencedTableName;
                                    remoteColumnName := referencedColumnName |} ] |}]>
                   (foreignKeyConstraints tableInfo);
               constraintSources := constraintSources tableInfo |}
      end
  end.

(** The loop over the key usage rows. *)
Fixpoint scanKeyUsage (table : string)
  (rows : list (error + (string * string * string * string)))
  (tableInfo : TableInfo) : outcome (error + TableInfo) :=
  match rows with
  | [] => Returned (inr tableInfo)
  | inl err :: _ =>
      Returned (inl ("unable to scan usage info for table " +:+ table +:+ ": " +:+ err))
  | inr row :: rows' =>
      tableInfo' ← addKeyUsage table tableInfo row;
      scanKeyUsage table rows' tableInfo'
  end.

(** The result is Go's pair of a table pointer and an error, [None] being nil. *)
Definition getTableInfo (table : string) (pool : DB)
  : outcome (option TableInfo * option error) :=
  match QueryColumns pool (columnsQuery table) with
  | inl err => Returned (None, Some err)
  | inr rows =>
      let tableInfo :=
        {| tiTableName := table;
           columns := ∅;
           referencedTables := ∅;
           foreignKeyConstraints := ∅;
           constraintSources := [] |} in
      match scanColumns table rows tableInfo with
      | inl err => Returned (None, Some err)
      | inr tableInfo =>
          match QueryKeyUsage pool (foreignKeysQuery table) with
          | inl err => Returned (None, Some err)
          | inr foreignKeyRows =>
              r ← scanKeyUsage table foreignKeyRows tableInfo;
              match r with
              | inl err => Returned (None, Some err)
              | inr tableInfo => Returned (Some tableInfo, None)
              end
          end
      end
  end.

End TableBuilder.

(** ** [validateAndGetReverse] *)

(** One turn of the loop over the parts; the state is the remote table name
    seen so far and the reverse parts built so far. *)
Definition reverseStep (st : string * list ConstraintPart) (part : ConstraintPart)
  : outcome (string * list ConstraintPart) :=
  let '(remoteTable, reverseParts) := st in
  remoteTable ←
    (if Nat.eqb (String.length remoteTable) 0
     then Returned (remoteTableName part)
     else _ ← AssertTrue (String.eqb (remoteTableName part) remoteTable);
          Returned remoteTable);
  Returned (remoteTable,
            (reverseParts ++
              [ {| tableName := remoteColumnName part;
                   columnName := remoteColumnName part;
                   remoteTableName := tableName part;
                   remoteColumnName := columnName part |} ])%list).

Definition validateAndGetReverse (constraint : ForeignKeyConstraint)
  : outcome (string * ForeignKeyConstraint) :=
  '(remoteTable, reverseParts) ← forEach reverseStep ("", []) (parts constraint);
  Returned (remoteTable, {| parts := reverseParts |}).

(** ** [populateReferencedByColumns] *)

(** The body of the inner loop.  [tables[reverseTable]] is nil when the key is
    missing, and reading a field through it panics. *)
Definition attachReverse (tables : gmap string TableInfo)
  (constraint : ForeignKeyConstraint) : outcome (gmap string TableInfo) :=
  '(reverseTable, reverseConstraint) ← validateAndGetReverse constraint;
  match tables !! reverseTable with
  | None => NilDereference
  | Some target =>
      Returned
        (<[reverseTable :=
             {| tiTableName := tiTableName target;
                columns := columns target;
                referencedTables := referencedTables target;
                foreignKeyConstraints := foreignKeyConstraints target;
                constraintSources := constraintSources target ++ [reverseConstraint] |}]>
           tables)
  end.

(** The pass writes [constraintSources] only, so the constraints a table had
    when the pass began are the ones its turn of the outer loop enumerates
    (lemma [attachReverse_constraints] below). *)
Definition populateReferencedByColumns `{R : GoRange}
  (tables : gmap string TableInfo) : outcome (gmap string TableInfo) :=
  forEach
    (fun tables '(_, tableInfo) =>
       forEach (fun tables '(_, constraint) => attachReverse tables constraint)
         tables (range (foreignKeyConstraints tableInfo)))
    tables (range tables).

(** * Vocabulary of the properties and example inputs *)

(** Longest-prefix match as the specification words it: of the prefixes of
    the lookup table that the type string starts with, the longest one
    decides; the zero type when there is none. *)
Definition longestPrefixMatch (table : gmap string DataType) (s : string) : DataType :=
  match merge_sort longer_key
          (filter (fun e : string * DataType => HasPrefix s e.1 = true)
             (map_to_list table)) with
  | [] => 0%Z
  | (_, goType) :: _ => goType
  end.

(** The inputs of the type-resolution examples. *)
Definition exampleTypes (String Integer : DataType) : gmap string DataType :=
  <["varchar" := String]> (<["int" := Integer]> ∅).

Definition columnOfType (dataTypeString : string) : ColumnOutput :=
  {| fieldName := "c"; coDataType := dataTypeString; coKeyType := "" |}.

Definition overlappingTypes : gmap string DataType :=
  <["int" := 1%Z]> (<["integer" := 2%Z]> ∅).

(** The reverse part that the loop of [validateAndGetReverse] appends for a
    part. *)
Definition reversePart (part : ConstraintPart) : ConstraintPart :=
  {| tableName := remoteColumnName part;
     columnName := remoteColumnName part;
     remoteTableName := tableName part;
     remoteColumnName := columnName part |}.

(** The pair (local column, remote column) of a part. *)
Definition columnPair (part : ConstraintPart) : string * string :=
  (columnName part, remoteColumnName part).

Definition sameRemoteTable (r : string) (ps : list ConstraintPart) : Prop :=
  Forall (fun p => remoteTableName p = r) ps.

Definition sameLocalTable (t : string) (ps : list ConstraintPart) : Prop :=
  Forall (fun p => tableName p = t) ps.

Definition compositeKey : ForeignKeyConstraint :=
  {| parts :=
       [ {| tableName := "registration"; columnName := "student_id";
            remoteTableName := "student"; remoteColumnName := "id" |};
         {| tableName := "registration"; columnName := "student_year";
            remoteTableName := "student"; remoteColumnName := "year" |} ] |}.

(** Two parts with one remote table and two local tables. *)
Definition mixedOwners : ForeignKeyConstraint :=
  {| parts :=
       [ {| tableName := "registration"; columnName := "student_id";
            remoteTableName := "student"; remoteColumnName := "id" |};
         {| tableName := "enrollment"; columnName := "student_year";
            remoteTableName := "student"; remoteColumnName := "year" |} ] |}.

(** A constraint whose first part has an empty remote table name. *)
Definition unnamedFirst : ForeignKeyConstraint :=
  {| parts :=
       [ {| tableName := "registration"; columnName := "student_id";
            remoteTableName := ""; remoteColumnName := "id" |};
         {| tableName := "registration"; columnName := "course_id";
            remoteTableName := "course"; remoteColumnName := "id" |} ] |}.

(** The constraint of the composite-consistency example of the
    specification. *)
Definition twoRemotes : ForeignKeyConstraint :=
  {| parts :=
       [ {| tableName := "student"; columnName := "student_id";
            remoteTableName := "student"; remoteColumnName := "id" |};
         {| tableName := "course"; columnName := "course_id";
            remoteTableName := "course"; remoteColumnName := "id" |} ] |}.

(** The remote table a constraint points at, the constraint with every part
    reversed, and the constraints that name one remote table throughout. *)
Definition remoteTableOf (c : ForeignKeyConstraint) : string :=
  match parts c with
  | [] => ""
  | p :: _ => remoteTableName p
  end.

Definition reverseOf (c : ForeignKeyConstraint) : ForeignKeyConstraint :=
  {| parts := reversePart <$> parts c |}.

Definition wellFormed (c : ForeignKeyConstraint) : Prop :=
  sameRemoteTable (remoteTableOf c) (parts c).

(** A table with constraints added at the end of its inbound list. *)
Definition appendSources (tableInfo : TableInfo) (added : list ForeignKeyConstraint)
  : TableInfo :=
  {| tiTableName := tiTableName tableInfo;
     columns := columns tableInfo;
     referencedTables := referencedTables tableInfo;
     foreignKeyConstraints := foreignKeyConstraints tableInfo;
     constraintSources := (constraintSources tableInfo ++ added)%list |}.

(** All outbound constraints of a model, and the ones one pass visits, in
    the order in which it visits them. *)
Definition outbound (tables : gmap string TableInfo) : list ForeignKeyConstraint :=
  map_to_list tables ≫= fun kv => (map_to_list (foreignKeyConstraints kv.2)).*2.

Definition worklist `{R : GoRange} (tables : gmap string TableInfo)
  : list ForeignKeyConstraint :=
  range tables ≫= fun kv => (range (foreignKeyConstraints kv.2)).*2.

(** The reverses of the constraints of [cs] that point at table [k]. *)
Definition inboundOf (k : string) (cs : list ForeignKeyConstraint)
  : list ForeignKeyConstraint :=
  reverseOf <$> filter (fun c => remoteTableOf c = k) cs.

(** Every outbound constraint names one remote table, and that table is in
    the model. *)
Definition closed (tables : gmap string TableInfo) : Prop :=
  forall k tableInfo cn c,
    tables !! k = Some tableInfo ->
    foreignKeyConstraints tableInfo !! cn = Some c ->
    wellFormed c /\ is_Some (tables !! remoteTableOf c).

(** No table has inbound constraints yet, as [getTableInfo] leaves it. *)
Definition unresolved (tables : gmap string TableInfo) : Prop :=
  forall k tableInfo, tables !! k = Some tableInfo -> constraintSources tableInfo = [].

(** The model of the end-to-end scenario: [student] with a primary key, and
    [registration] with the foreign key [fk1] on [student]. *)
Definition fk1 : ForeignKeyConstraint :=
  {| parts :=
       [ {| tableName := "registration"; columnName := "student_id";
            remoteTableName := "student"; remoteColumnName := "id" |} ] |}.

Definition studentTable : TableInfo :=
  {| tiTableName := "student";
     columns := {[ "id" := {| name := "id"; keyType := PRIMARY; dataType := 0%Z |} ]};
     referencedTables := ∅;
     foreignKeyConstraints := ∅;
     constraintSources := [] |}.

Definition registrationTable : TableInfo :=
  {| tiTableName := "registration";
     columns := {[ "student_id" :=
                     {| name := "student_id"; keyType := MULTI; dataType := 0%Z |} ]};
     referencedTables := {[ "student" ]};
     foreignKeyConstraints := {[ "fk1" := fk1 ]};
     constraintSources := [] |}.

Definition school : gmap string TableInfo :=
  <["student" := studentTable]> (<["registration" := registrationTable]> ∅).

(** The same model without the referenced table. *)
Definition schoolWithoutStudent : gmap string TableInfo :=
  <["registration" := registrationTable]> ∅.

(** A constraint dooms the pass when its validation fails or the table it
    returns is missing. *)
Definition doomed (tables : gmap string TableInfo) (c : ForeignKeyConstraint) : Prop :=
  match validateAndGetReverse c with
  | Returned (r, _) => tables !! r = None
  | _ => True
  end.

(** Every query fails. *)
Definition unreachableSource : DB :=
  {| QueryColumns := fun _ => inl "connection refused";
     QueryKeyUsage := fun _ => inl "connection refused" |}.

(** [student(id PRIMARY)], no foreign key. *)
Definition studentSource : DB :=
  {| QueryColumns := fun q =>
       if decide (q = columnsQuery "student")
       then inr [inr {| fieldName := "id"; coDataType := "int(11)"; coKeyType := "PRI" |}]
       else inr [];
     QueryKeyUsage := fun _ => inr [] |}.

(** [student] again, with a second column row that does not decode. *)
Definition brokenRowSource : DB :=
  {| QueryColumns := fun q =>
       if decide (q = columnsQuery "student")
       then inr [inr {| fieldName := "id"; coDataType := "int(11)"; coKeyType := "PRI" |};
                 inl "converting NULL to string is unsupported"]
       else inr [];
     QueryKeyUsage := fun _ => inr [] |}.

(** [registration] with its two foreign keys, as in the example of the
    referenced-table set. *)
Definition registrationSource : DB :=
  {| QueryColumns := fun q =>
       if decide (q = columnsQuery "registration")
       then inr [inr {| fieldName := "student_id"; coDataType := "int(11)"; coKeyType := "MUL" |};
                 inr {| fieldName := "course_id"; coDataType := "int(11)"; coKeyType := "MUL" |}]
       else inr [];
     QueryKeyUsage := fun q =>
       if decide (q = foreignKeysQuery "registration")
       then inr [inr ("student_id", "fk1", "student", "id");
                 inr ("course_id", "fk2", "course", "id")]
       else inr [] |}.

(** The parts of a constraint from the first one that names a remote table,
    the name [validateAndGetReverse] settles on, and the constraints it
    accepts: the parts after that first one name the same table. *)
Fixpoint namedParts (ps : list ConstraintPart) : list ConstraintPart :=
  match ps with
  | [] => []
  | p :: ps' => if decide (remoteTableName p = "") then namedParts ps' else p :: ps'
  end.

Definition validatedName (ps : list ConstraintPart) : string :=
  match namedParts ps with
  | [] => ""
  | p :: _ => remoteTableName p
  end.

Definition consistent (ps : list ConstraintPart) : Prop :=
  match namedParts ps with
  | [] => True
  | p :: rest => Forall (fun q => remoteTableName q = remoteTableName p) rest
  end.

(** A part whose table names are its column names. *)
Definition selfNamed (p : ConstraintPart) : Prop :=
  tableName p = columnName p /\ remoteTableName p = remoteColumnName p.

(** The reverse constraints that the constraints of [cs] make
    [validateAndGetReverse] return for table [k]. *)
Definition reversesInto (k : string) (cs : list ForeignKeyConstraint)
  : list ForeignKeyConstraint :=
  omap (fun c => match validateAndGetReverse c with
                 | Returned (r, reversed) => if decide (r = k) then Some reversed else None
                 | _ => None
                 end) cs.

(** The number of inbound constraints of a model, all tables together. *)
Definition inboundCount (tables : gmap string TableInfo) : nat :=
  sum_list_with (fun kv : string * TableInfo => length (constraintSources kv.2))
    (map_to_list tables).

(** A constraint that the pass can attach: it validates, and the table it
    is attached to is in the model. *)
Definition attachable (tables : gmap string TableInfo) (c : ForeignKeyConstraint) : Prop :=
  exists r reversed,
    validateAndGetReverse c = Returned (r, reversed) /\ is_Some (tables !! r).

(** Two prefixes of the lookup table of which one starts with the other
    carry the same type. *)
Definition prefixConsistent (table : gmap string DataType) : Prop :=
  forall p1 p2 v1 v2,
    table !! p1 = Some v1 -> table !! p2 = Some v2 ->
    HasPrefix p2 p1 = true -> v1 = v2.

(** The record that [getTableInfo] builds for [student] from
    [studentSource], the model made of it, and [school] after one pass. *)
Definition builtStudent : TableInfo :=
  {| tiTableName := "student";
     columns := <["id" := {| name := "id"; keyType := PRIMARY; dataType := 2%Z |}]> ∅;
     referencedTables := ∅;
     foreignKeyConstraints := ∅;
     constraintSources := [] |}.

Definition builtModel : gmap string TableInfo := <["student" := builtStudent]> ∅.

Definition schoolResolved : gmap string TableInfo :=
  <["student" := appendSources studentTable [reverseOf fk1]]> school.

(** The column map after the column loop of [getTableInfo]: one insertion
    per decoded row, in order. *)
Definition withColumns `{R : GoRange} (types : gmap string DataType)
  (columns : gmap string ColumnInfo) (cols : list ColumnOutput)
  : gmap string ColumnInfo :=
  foldl (fun m co => <[fieldName co := getColumnInfo types co]> m) columns cols.

(** A table whose one constraint names two remote tables, and its model. *)
Definition twoRemotesTable : TableInfo :=
  {| tiTableName := "registration";
     columns := ∅;
     referencedTables := {[ "student"; "course" ]};
     foreignKeyConstraints := {[ "fk" := twoRemotes ]};
     constraintSources := [] |}.

Definition twoRemotesModel : gmap string TableInfo :=
  <["registration" := twoRemotesTable]> ∅.

(** * Properties *)

(** ** Loops *)

Lemma forEach_cons_Returned {S A : Type} (body : S -> A -> outcome S)
  (s s' : S) (a : A) (l : list A) :
  body s a = Returned s' -> forEach body s (a :: l) = forEach body s' l.
Proof. intros H. simpl. by rewrite H. Qed.

Lemma forEach_cons_AssertFailed {S A : Type} (body : S -> A -> outcome S)
  (s : S) (a : A) (l : list A) :
  body s a = AssertFailed -> forEach body s (a :: l) = AssertFailed.
Proof. intros H. simpl. by rewrite H. Qed.

Lemma forEach_cons_NilDereference {S A : Type} (body : S -> A -> outcome S)
  (s : S) (a : A) (l : list A) :
  body s a = NilDereference -> forEach body s (a :: l) = NilDereference.
Proof. intros H. simpl. by rewrite H. Qed.

Lemma forEach_app {S A : Type} (body : S -> A -> outcome S) (s : S) (l1 l2 : list A) :
  forEach body s (l1 ++ l2)%list = s' ← forEach body s l1; forEach body s' l2.
Proof.
  revert s. induction l1 as [|a l1 IH]; intros s; simpl; [done|].
  destruct (body s a); simpl; auto.
Qed.

(** ** Column rows *)

Lemma firstPrefix_no_match s entries current :
  Forall (fun e : string * DataType => HasPrefix s e.1 = false) entries ->
  firstPrefix s entries current = current.
Proof.
  induction 1 as [|[p v] entries Hp _ IH]; simpl in *; [done|].
  by rewrite Hp.
Qed.

Lemma firstPrefix_match s entries current :
  Exists (fun e : string * DataType => HasPrefix s e.1 = true) entries ->
  exists p, (p, firstPrefix s entries current) ∈ entries /\ HasPrefix s p = true.
Proof.
  induction entries as [|[p v] entries IH]; intros Hex.
  - by apply Exists_nil in Hex.
  - simpl. destruct (HasPrefix s p) eqn:Hp.
    + exists p. split; [left|done].
    + apply Exists_cons in Hex as [Hex|Hex]; [simpl in Hex; congruence|].
      destruct (IH Hex) as (p' & Hin & Hp'). exists p'. split; [by right|done].
Qed.

Lemma elem_of_range `{R : GoRange} {A : Type} (m : gmap string A) k v :
  (k, v) ∈ range m <-> m !! k = Some v.
Proof. rewrite range_perm. apply elem_of_map_to_list. Qed.

Lemma longestPrefixMatch_no_match table s :
  (forall p v, table !! p = Some v -> HasPrefix s p = false) ->
  longestPrefixMatch table s = 0%Z.
Proof.
  intros Hno. unfold longestPrefixMatch.
  destruct (merge_sort _ _) as [|[p v] l] eqn:Hs; [done|].
  assert (Hin : (p, v) ∈ merge_sort longer_key
            (filter (fun e : string * DataType => HasPrefix s e.1 = true)
               (map_to_list table))) by (rewrite Hs; left).
  rewrite merge_sort_Permutation in Hin.
  apply list_elem_of_filter in Hin as [Hp Hin]. simpl in Hp.
  apply elem_of_map_to_list in Hin. rewrite (Hno _ _ Hin) in Hp. done.
Qed.

Lemma longestPrefixMatch_match table s p v :
  table !! p = Some v -> HasPrefix s p = true ->
  exists p', table !! p' = Some (longestPrefixMatch table s) /\
             HasPrefix s p' = true /\
             (String.length p <= String.length p')%nat.
Proof.
  intros Hp Hs. unfold longestPrefixMatch.
  set (matching := filter (fun e : string * DataType => HasPrefix s e.1 = true)
                     (map_to_list table)).
  assert (Hin : (p, v) ∈ merge_sort longer_key matching).
  { rewrite merge_sort_Permutation. apply list_elem_of_filter. split; [done|].
    by apply elem_of_map_to_list. }
  assert (Hsorted : StronglySorted longer_key (merge_sort longer_key matching)).
  { apply StronglySorted_merge_sort.
    - intros x y z. unfold longer_key. lia.
    - intros x y. unfold longer_key. lia. }
  assert (Hsub : forall e, e ∈ merge_sort longer_key matching ->
                   table !! e.1 = Some e.2 /\ HasPrefix s e.1 = true).
  { intros [p' v'] Hin'. rewrite merge_sort_Permutation in Hin'.
    apply list_elem_of_filter in Hin' as [? Hin'].
    by apply elem_of_map_to_list in Hin'. }
  destruct (merge_sort longer_key matching) as [|[p0 v0] l]; [by apply elem_of_nil in Hin|].
  exists p0. destruct (Hsub (p0, v0)) as [H1 H2]; [left|]. simpl in *.
  split_and!; [done..|].
  apply elem_of_cons in Hin as [Heq|Hin]; [by inversion Heq|].
  apply StronglySorted_inv in Hsorted as [_ Hall].
  rewrite Forall_forall in Hall. apply (Hall (p, v)), Hin.
Qed.

(** C7: [getColumnInfo] keeps the column name and maps the key
    classification [PRI] to primary, [MUL] to multi, and every other string,
    the empty one included, to none. *)
Theorem getColumnInfo_keyType `{R : GoRange} (table : gmap string DataType)
  (columnOutput : ColumnOutput) :
  name (getColumnInfo table columnOutput) = fieldName columnOutput /\
  keyType (getColumnInfo table columnOutput) =
    (if decide (coKeyType columnOutput = "PRI") then PRIMARY
     else if decide (coKeyType columnOutput = "MUL") then MULTI
     else NONE).
Proof.
  unfold getColumnInfo.
  destruct (String.eqb_spec (coKeyType columnOutput) "PRI") as [->|Hpri];
    [by split|].
  destruct (String.eqb_spec (coKeyType columnOutput) "MUL") as [->|Hmul];
    [by split|].
  split; [done|]. simpl. by rewrite !decide_False.
Qed.

Lemma firstPrefix_first s (before after : list (string * DataType)) p v current :
  Forall (fun e : string * DataType => HasPrefix s e.1 = false) before ->
  HasPrefix s p = true ->
  firstPrefix s (before ++ (p, v) :: after)%list current = v.
Proof.
  intros Hbefore Hp. induction Hbefore as [|[p' v'] before Hp' _ IH]; simpl in *.
  - by rewrite Hp.
  - by rewrite Hp'.
Qed.

Lemma dataType_getColumnInfo `{R : GoRange} (table : gmap string DataType)
  (columnOutput : ColumnOutput) :
  dataType (getColumnInfo table columnOutput) =
    firstPrefix (coDataType columnOutput) (range table) 0%Z.
Proof.
  unfold getColumnInfo.
  by destruct (String.eqb (coKeyType columnOutput) "PRI"),
                (String.eqb (coKeyType columnOutput) "MUL").
Qed.

(** C6, as the code has it: the value type of a column is the one of the
    first entry of the lookup table, in the order in which the table is
    enumerated, whose prefix the type string starts with: the entries
    enumerated before it do not match.  It is therefore the type of some
    matching prefix, the zero type when no prefix matches, and the
    longest-prefix match whenever all matching prefixes carry one type, as in
    the examples [varchar(50)], [int(11)] and [unknown_type]. *)
Theorem getColumnInfo_dataType_first_match `{R : GoRange}
  (table : gmap string DataType) (columnOutput : ColumnOutput) :
  let s := coDataType columnOutput in
  let t := dataType (getColumnInfo table columnOutput) in
  (forall before p v after,
     range table = (before ++ (p, v) :: after)%list ->
     Forall (fun e : string * DataType => HasPrefix s e.1 = false) before ->
     HasPrefix s p = true ->
     t = v) /\
  ((forall p v, table !! p = Some v -> HasPrefix s p = false) ->
     t = 0%Z /\ longestPrefixMatch table s = 0%Z) /\
  ((exists p v, table !! p = Some v /\ HasPrefix s p = true) ->
     exists p, table !! p = Some t /\ HasPrefix s p = true) /\
  (forall v,
     (exists p, table !! p = Some v /\ HasPrefix s p = true) ->
     (forall p v', table !! p = Some v' -> HasPrefix s p = true -> v' = v) ->
     t = v /\ longestPrefixMatch table s = v) /\
  (forall String Integer,
     dataType (getColumnInfo (exampleTypes String Integer)
                 (columnOfType "varchar(50)")) = String /\
     dataType (getColumnInfo (exampleTypes String Integer)
                 (columnOfType "int(11)")) = Integer /\
     dataType (getColumnInfo (exampleTypes String Integer)
                 (columnOfType "unknown_type")) = 0%Z).
Proof.
  assert (Hnone : forall table s,
            (forall p v, table !! p = Some v -> HasPrefix s p = false) ->
            firstPrefix s (range table) 0%Z = 0%Z).
  { intros m s Hno. apply firstPrefix_no_match, Forall_forall.
    intros [p v] Hin. apply elem_of_range in Hin. simpl. eauto. }
  assert (Hsome : forall table s,
            (exists p v, table !! p = Some v /\ HasPrefix s p = true) ->
            exists p, table !! p = Some (firstPrefix s (range table) 0%Z) /\
                      HasPrefix s p = true).
  { intros m s (p & v & Hp & Hs).
    destruct (firstPrefix_match s (range m) 0%Z) as (p' & Hin & Hs').
    - apply Exists_exists. exists (p, v). split; [by apply elem_of_range|done].
    - exists p'. split; [by apply elem_of_range|done]. }
  assert (Hone : forall table s v,
            (exists p, table !! p = Some v /\ HasPrefix s p = true) ->
            (forall p v', table !! p = Some v' -> HasPrefix s p = true -> v' = v) ->
            firstPrefix s (range table) 0%Z = v /\ longestPrefixMatch table s = v).
  { intros m s v (p & Hp & Hs) Hall. split.
    - destruct (Hsome m s) as (p' & Hp' & Hs'); [by eauto|]. eauto.
    - destruct (longestPrefixMatch_match m s p v Hp Hs) as (p' & Hp' & Hs' & _).
      eauto. }
  intros s t. subst s t. rewrite dataType_getColumnInfo. split_and!.
  - intros before p v after -> Hbefore Hp. by apply firstPrefix_first.
  - intros Hno. split; [by apply Hnone|by apply longestPrefixMatch_no_match].
  - apply Hsome.
  - apply Hone.
  - intros String Integer. rewrite !dataType_getColumnInfo.
    unfold exampleTypes. split_and!.
    + apply Hone.
      * exists "varchar". split; [by rewrite lookup_insert_eq|done].
      * intros p v' Hp Hs. apply lookup_insert_Some in Hp as [[<- <-]|[_ Hp]]; [done|].
        apply lookup_insert_Some in Hp as [[<- <-]|[_ Hp]]; [done|].
        by rewrite lookup_empty in Hp.
    + apply Hone.
      * exists "int". split; [|done].
        rewrite lookup_insert_ne; [|done]. by rewrite lookup_insert_eq.
      * intros p v' Hp Hs. apply lookup_insert_Some in Hp as [[<- <-]|[_ Hp]]; [done|].
        apply lookup_insert_Some in Hp as [[<- <-]|[_ Hp]]; [done|].
        by rewrite lookup_empty in Hp.
    + apply Hnone. intros p v Hp.
      apply lookup_insert_Some in Hp as [[<- <-]|[_ Hp]]; [done|].
      apply lookup_insert_Some in Hp as [[<- <-]|[_ Hp]]; [done|].
      by rewrite lookup_empty in Hp.
Qed.

Lemma getColumnInfo_dataType_first_match_witness :
  dataType (getColumnInfo (R := range_shortest_first) overlappingTypes
              (columnOfType "integer")) = 1%Z.
Proof.
  apply (proj1 (getColumnInfo_dataType_first_match (R := range_shortest_first)
                  overlappingTypes (columnOfType "integer"))
           [] "int" 1%Z [("integer", 2%Z)]).
  - reflexivity.
  - constructor.
  - reflexivity.
Defined.

(** C6 as stated fails: with the prefixes [int] and [integer] in the table
    and the shorter one enumerated first, the type string [integer] resolves
    to the type of [int], while the longest matching prefix is [integer]. *)
Lemma getColumnInfo_not_longest_prefix :
  dataType (getColumnInfo (R := range_shortest_first) overlappingTypes
              (columnOfType "integer")) = 1%Z /\
  longestPrefixMatch overlappingTypes "integer" = 2%Z /\
  dataType (getColumnInfo (R := range_shortest_first) overlappingTypes
              (columnOfType "integer")) <>
    longestPrefixMatch overlappingTypes "integer".
Proof. vm_compute. split_and!; [reflexivity|reflexivity|discriminate]. Qed.

(** ** Reversal of one constraint *)

Lemma length_zero_eqb (s : string) :
  Nat.eqb (String.length s) 0 = true <-> s = "".
Proof. destruct s; simpl; split; congruence. Qed.

Lemma reverseStep_first (acc : list ConstraintPart) (part : ConstraintPart) :
  reverseStep ("", acc) part =
    Returned (remoteTableName part, (acc ++ [reversePart part])%list).
Proof. reflexivity. Qed.

Lemma reverseStep_next (r : string) (acc : list ConstraintPart) (part : ConstraintPart) :
  r <> "" ->
  reverseStep (r, acc) part =
    if String.eqb (remoteTableName part) r
    then Returned (r, (acc ++ [reversePart part])%list)
    else AssertFailed.
Proof.
  intros Hr. unfold reverseStep.
  destruct (Nat.eqb (String.length r) 0) eqn:Hlen.
  - by apply length_zero_eqb in Hlen.
  - by destruct (String.eqb (remoteTableName part) r).
Qed.

(** The loop from a state that agrees with the remote table of all parts. *)
Lemma reverseLoop_shared (r r0 : string) (ps acc : list ConstraintPart) :
  sameRemoteTable r ps -> r0 = "" \/ r0 = r ->
  forEach reverseStep (r0, acc) ps =
    Returned (match ps with [] => r0 | _ => r end,
              (acc ++ (reversePart <$> ps))%list).
Proof.
  intros Hps. revert r0 acc.
  induction Hps as [|p ps Hp Hps IH]; intros r0 acc Hr0.
  - simpl. by rewrite app_nil_r.
  - assert (Hstep : reverseStep (r0, acc) p
                    = Returned (r, (acc ++ [reversePart p])%list)).
    { destruct (decide (r0 = "")) as [->|Hne].
      - by rewrite reverseStep_first, Hp.
      - destruct Hr0 as [Hz | ->]; [done|].
        rewrite reverseStep_next by done. rewrite Hp.
        by rewrite String.eqb_refl. }
    rewrite (forEach_cons_Returned _ _ _ _ _ Hstep), IH by (by right).
    rewrite <- app_assoc. simpl. by destruct ps.
Qed.

(** The loop from a non-empty remote table name that some part contradicts. *)
Lemma reverseLoop_mismatch (r0 : string) (ps acc : list ConstraintPart) :
  r0 <> "" -> Exists (fun p => remoteTableName p <> r0) ps ->
  forEach reverseStep (r0, acc) ps = AssertFailed.
Proof.
  intros Hr0. revert acc. induction ps as [|p ps IH]; intros acc Hex.
  - by apply Exists_nil in Hex.
  - pose proof (reverseStep_next r0 acc p Hr0) as Hstep.
    destruct (String.eqb_spec (remoteTableName p) r0) as [Heq|Hne].
    + rewrite (forEach_cons_Returned _ _ _ _ _ Hstep). apply IH.
      apply Exists_cons in Hex as [Hex | Hex]; done.
    + by apply forEach_cons_AssertFailed.
Qed.

Lemma reverse_of_shared_parts (c : ForeignKeyConstraint) (r : string) :
  sameRemoteTable r (parts c) ->
  validateAndGetReverse c =
    Returned (match parts c with [] => "" | _ => r end,
              {| parts := reversePart <$> parts c |}).
Proof.
  intros Hc. unfold validateAndGetReverse.
  by rewrite (reverseLoop_shared r "" (parts c) []) by auto.
Qed.

(** C2: for a constraint whose parts all name one remote table,
    [validateAndGetReverse] returns that table together with a constraint
    that has one reverse part per part, in the same order; the reverse of
    (local table, local column, remote table, remote column) has the remote
    column as table name and as column name, the local table as remote table
    and the local column as remote column. *)
Theorem validateAndGetReverse_shared (c : ForeignKeyConstraint) (r : string) :
  sameRemoteTable r (parts c) ->
  exists t,
    validateAndGetReverse c =
      Returned (t, {| parts :=
                        (fun p => {| tableName := remoteColumnName p;
                                     columnName := remoteColumnName p;
                                     remoteTableName := tableName p;
                                     remoteColumnName := columnName p |})
                          <$> parts c |}) /\
    (parts c <> [] -> t = r).
Proof.
  intros Hc. rewrite (reverse_of_shared_parts c r Hc).
  eexists. split; [reflexivity|]. by destruct (parts c).
Qed.

Lemma validateAndGetReverse_shared_witness :
  exists t,
    validateAndGetReverse compositeKey =
      Returned (t, {| parts :=
                        [ {| tableName := "id"; columnName := "id";
                             remoteTableName := "registration";
                             remoteColumnName := "student_id" |};
                          {| tableName := "year"; columnName := "year";
                             remoteTableName := "registration";
                             remoteColumnName := "student_year" |} ] |}) /\
    (parts compositeKey <> [] -> t = "student").
Proof.
  apply (validateAndGetReverse_shared compositeKey "student").
  repeat constructor.
Defined.

Lemma columnPair_reversePart_twice (p : ConstraintPart) :
  columnPair (reversePart (reversePart p)) = columnPair p.
Proof. reflexivity. Qed.

Lemma sameRemoteTable_reversed (t : string) (ps : list ConstraintPart) :
  sameLocalTable t ps -> sameRemoteTable t (reversePart <$> ps).
Proof.
  unfold sameLocalTable, sameRemoteTable. rewrite Forall_fmap.
  intros H. eapply Forall_impl; [exact H|]. done.
Qed.

(** C4, as the code has it: when the parts of a constraint name one remote
    table and one local table, reversing the constraint and reversing the
    result both return, and the second result has the (local column, remote
    column) pairs of the constraint it started from. *)
Theorem validateAndGetReverse_twice (c : ForeignKeyConstraint) (r t : string) :
  sameRemoteTable r (parts c) ->
  sameLocalTable t (parts c) ->
  exists r1 c1 r2 c2,
    validateAndGetReverse c = Returned (r1, c1) /\
    validateAndGetReverse c1 = Returned (r2, c2) /\
    columnPair <$> parts c2 ≡ₚ columnPair <$> parts c.
Proof.
  intros Hr Ht. do 4 eexists. split_and!.
  - apply (reverse_of_shared_parts c r Hr).
  - apply (reverse_of_shared_parts _ t). simpl.
    by apply sameRemoteTable_reversed.
  - simpl. rewrite <- !list_fmap_compose.
    by erewrite (list_fmap_ext _ columnPair) by (intros; apply columnPair_reversePart_twice).
Qed.

Lemma validateAndGetReverse_twice_witness :
  exists r1 c1 r2 c2,
    validateAndGetReverse compositeKey = Returned (r1, c1) /\
    validateAndGetReverse c1 = Returned (r2, c2) /\
    columnPair <$> parts c2 ≡ₚ columnPair <$> parts compositeKey.
Proof.
  apply (validateAndGetReverse_twice compositeKey "student" "registration");
    repeat constructor.
Defined.

(** C4 as stated fails: the parts of [mixedOwners] share their remote table,
    the first reversal returns, and the second one fails its assertion, the
    reversed parts naming two remote tables. *)
Lemma second_reversal_fails :
  sameRemoteTable "student" (parts mixedOwners) /\
  exists c1,
    validateAndGetReverse mixedOwners = Returned ("student", c1) /\
    validateAndGetReverse c1 = AssertFailed.
Proof.
  split; [repeat constructor|].
  eexists. split; reflexivity.
Qed.

(** A part with an empty remote table name at the head of a constraint
    leaves the name unset: the check starts at the next part. *)
Example validateAndGetReverse_empty_name_first :
  (exists p q, p ∈ parts unnamedFirst /\ q ∈ parts unnamedFirst /\
               remoteTableName p <> remoteTableName q) /\
  validateAndGetReverse unnamedFirst =
    Returned ("course",
              {| parts :=
                   [ {| tableName := "id"; columnName := "id";
                        remoteTableName := "registration";
                        remoteColumnName := "student_id" |};
                     {| tableName := "id"; columnName := "id";
                        remoteTableName := "registration";
                        remoteColumnName := "course_id" |} ] |}).
Proof.
  split; [|reflexivity].
  eexists _, _. split_and!; [left|right; left|]. simpl. discriminate.
Qed.

Lemma validateAndGetReverse_mismatch (c : ForeignKeyConstraint)
  (first : ConstraintPart) (rest : list ConstraintPart) (p q : ConstraintPart) :
  parts c = first :: rest ->
  remoteTableName first <> "" ->
  p ∈ parts c -> q ∈ parts c ->
  remoteTableName p <> remoteTableName q ->
  validateAndGetReverse c = AssertFailed.
Proof.
  intros Hparts Hfirst Hp Hq Hpq. unfold validateAndGetReverse. rewrite Hparts.
  rewrite (forEach_cons_Returned _ _ _ _ _ (reverseStep_first [] first)).
  rewrite reverseLoop_mismatch; [done..|].
  rewrite Hparts in Hp, Hq. apply Exists_exists.
  destruct (decide (remoteTableName p = remoteTableName first)) as [Hpf|Hpf].
  - exists q. split; [|congruence].
    apply elem_of_cons in Hq as [->|Hq]; [congruence|done].
  - exists p. split; [|done].
    apply elem_of_cons in Hp as [->|Hp]; [congruence|done].
Qed.

(** ** The reverse-link pass *)

Lemma wellFormed_shared (c : ForeignKeyConstraint) (r : string) :
  sameRemoteTable r (parts c) -> wellFormed c.
Proof.
  unfold wellFormed, remoteTableOf. intros H.
  destruct (parts c) as [|p ps]; [constructor|].
  by rewrite (Forall_inv H).
Qed.

Lemma remoteTableOf_shared (c : ForeignKeyConstraint) (r : string) :
  sameRemoteTable r (parts c) -> parts c <> [] -> remoteTableOf c = r.
Proof.
  unfold remoteTableOf. intros H Hne.
  destruct (parts c) as [|p ps]; [done|]. apply (Forall_inv H).
Qed.

Lemma validateAndGetReverse_wellFormed (c : ForeignKeyConstraint) :
  wellFormed c -> validateAndGetReverse c = Returned (remoteTableOf c, reverseOf c).
Proof.
  intros H. rewrite (reverse_of_shared_parts c _ H).
  unfold remoteTableOf, reverseOf. by destruct (parts c).
Qed.

Lemma forEach_snd {S K A : Type} (body : S -> A -> outcome S) (s : S)
  (l : list (K * A)) :
  forEach (fun s '(_, a) => body s a) s l = forEach body s l.*2.
Proof.
  revert s. induction l as [|[k a] l IH]; intros s; simpl; [done|].
  destruct (body s a); simpl; auto.
Qed.

Lemma populateReferencedByColumns_worklist `{R : GoRange}
  (tables : gmap string TableInfo) :
  populateReferencedByColumns tables = forEach attachReverse tables (worklist tables).
Proof.
  unfold populateReferencedByColumns, worklist.
  generalize (range tables). intros l. revert tables.
  induction l as [|[k ti] l IH]; intros s; [done|].
  rewrite bind_cons, forEach_app. simpl.
  rewrite (forEach_snd attachReverse).
  destruct (forEach attachReverse s _); simpl; auto.
Qed.

Lemma worklist_outbound `{R : GoRange} (tables : gmap string TableInfo) :
  worklist tables ≡ₚ outbound tables.
Proof.
  unfold worklist, outbound. rewrite range_perm.
  induction (map_to_list tables) as [|kv l IH]; [done|].
  rewrite !bind_cons. by rewrite IH, range_perm.
Qed.

Lemma elem_of_outbound (tables : gmap string TableInfo) (c : ForeignKeyConstraint) :
  c ∈ outbound tables <->
  exists k tableInfo cn,
    tables !! k = Some tableInfo /\ foreignKeyConstraints tableInfo !! cn = Some c.
Proof.
  unfold outbound. rewrite list_elem_of_bind. split.
  - intros ([k ti] & Hc & Hk). apply elem_of_map_to_list in Hk.
    apply list_elem_of_fmap in Hc as ([cn c'] & -> & Hc).
    apply elem_of_map_to_list in Hc. by exists k, ti, cn.
  - intros (k & ti & cn & Hk & Hc). exists (k, ti). split.
    + apply list_elem_of_fmap. exists (cn, c). split; [done|].
      by apply elem_of_map_to_list.
    + by apply elem_of_map_to_list.
Qed.

(** The outbound constraints depend on the [foreignKeyConstraints] fields
    only. *)
Lemma outbound_constraints (tables1 tables2 : gmap string TableInfo) :
  foreignKeyConstraints <$> tables1 = foreignKeyConstraints <$> tables2 ->
  outbound tables1 ≡ₚ outbound tables2.
Proof.
  intros Heq.
  assert (Hvia : forall tables : gmap string TableInfo,
            outbound tables ≡ₚ
            map_to_list (foreignKeyConstraints <$> tables) ≫=
              fun kv => (map_to_list kv.2).*2).
  { intros tables. unfold outbound. rewrite map_to_list_fmap.
    by rewrite list_fmap_bind. }
  by rewrite (Hvia tables1), (Hvia tables2), Heq.
Qed.

Lemma appendSources_nil (tableInfo : TableInfo) : appendSources tableInfo [] = tableInfo.
Proof. destruct tableInfo. unfold appendSources. simpl. by rewrite app_nil_r. Qed.

Lemma appendSources_app (tableInfo : TableInfo) (l1 l2 : list ForeignKeyConstraint) :
  appendSources (appendSources tableInfo l1) l2 = appendSources tableInfo (l1 ++ l2)%list.
Proof. unfold appendSources. simpl. by rewrite app_assoc. Qed.

Lemma attachReverse_wellFormed (tables : gmap string TableInfo)
  (c : ForeignKeyConstraint) (target : TableInfo) :
  wellFormed c -> tables !! remoteTableOf c = Some target ->
  attachReverse tables c =
    Returned (<[remoteTableOf c := appendSources target [reverseOf c]]> tables).
Proof.
  intros Hwf Hr. unfold attachReverse.
  rewrite (validateAndGetReverse_wellFormed c Hwf). simpl. by rewrite Hr.
Qed.

(** The pass over well-formed constraints whose remote tables are present:
    every table keeps its fields and gains, at the end of its inbound list,
    the reverses of the constraints that point at it, in the order of the
    visit. *)
Lemma attachLoop_closed (cs : list ForeignKeyConstraint) (tables : gmap string TableInfo) :
  Forall (fun c => wellFormed c /\ is_Some (tables !! remoteTableOf c)) cs ->
  exists tables',
    forEach attachReverse tables cs = Returned tables' /\
    forall k, tables' !! k =
              (fun tableInfo => appendSources tableInfo (inboundOf k cs)) <$> tables !! k.
Proof.
  revert tables. induction cs as [|c cs IH]; intros tables Hcs.
  - exists tables. split; [done|]. intros k. unfold inboundOf. simpl.
    destruct (tables !! k); simpl; [|done]. by rewrite appendSources_nil.
  - apply Forall_cons in Hcs as [[Hwf [target Hr]] Hcs].
    pose proof (attachReverse_wellFormed tables c target Hwf Hr) as Hstep.
    destruct (IH (<[remoteTableOf c := appendSources target [reverseOf c]]> tables))
      as (tables' & Hloop & Hlookup).
    { eapply Forall_impl; [exact Hcs|]. intros c' [Hwf' Hsome]. split; [done|].
      apply lookup_insert_is_Some. destruct (decide (remoteTableOf c = remoteTableOf c')); auto. }
    exists tables'. split.
    + by rewrite (forEach_cons_Returned _ _ _ _ _ Hstep).
    + intros k. rewrite Hlookup. unfold inboundOf.
      destruct (decide (remoteTableOf c = k)) as [<-|Hne].
      * rewrite lookup_insert_eq, Hr. simpl. rewrite appendSources_app.
        by rewrite filter_cons_True.
      * rewrite lookup_insert_ne by done. by rewrite filter_cons_False.
Qed.

Lemma closed_worklist `{R : GoRange} (tables : gmap string TableInfo) :
  closed tables ->
  Forall (fun c => wellFormed c /\ is_Some (tables !! remoteTableOf c)) (worklist tables).
Proof.
  intros Hclosed. apply Forall_forall. intros c Hc.
  rewrite worklist_outbound in Hc.
  apply elem_of_outbound in Hc as (k & ti & cn & Hk & Hcn). eauto.
Qed.

Lemma inboundOf_Permutation (k : string) (cs1 cs2 : list ForeignKeyConstraint) :
  cs1 ≡ₚ cs2 -> inboundOf k cs1 ≡ₚ inboundOf k cs2.
Proof. intros H. unfold inboundOf. by rewrite H. Qed.

(** One pass over a closed model, in terms of what every table gains. *)
Lemma pass_appends_inbound `{R : GoRange} (tables : gmap string TableInfo) :
  closed tables ->
  exists tables',
    populateReferencedByColumns tables = Returned tables' /\
    forall k, exists added,
      added ≡ₚ inboundOf k (outbound tables) /\
      tables' !! k =
        (fun tableInfo => appendSources tableInfo added) <$> tables !! k.
Proof.
  intros Hclosed.
  destruct (attachLoop_closed (worklist tables) tables (closed_worklist tables Hclosed))
    as (tables' & Hrun & Hlookup).
  exists tables'. split; [by rewrite populateReferencedByColumns_worklist|].
  intros k. exists (inboundOf k (worklist tables)). split; [|done].
  apply inboundOf_Permutation, worklist_outbound.
Qed.

(** C5: on a model whose outbound constraints all point at tables of the
    model, one pass returns; every table keeps its other fields, and its
    inbound list gains exactly the reverses of the outbound constraints, of
    all tables, whose remote table it is: one per such constraint, none for
    any other. *)
Theorem populateReferencedByColumns_closed `{R : GoRange}
  (tables : gmap string TableInfo) :
  closed tables ->
  exists tables',
    populateReferencedByColumns tables = Returned tables' /\
    forall k, exists added,
      added ≡ₚ inboundOf k (outbound tables) /\
      tables' !! k =
        (fun tableInfo => appendSources tableInfo added) <$> tables !! k.
Proof. exact (pass_appends_inbound tables). Qed.

Lemma school_lookup (k : string) (tableInfo : TableInfo) :
  school !! k = Some tableInfo ->
  (k = "student" /\ tableInfo = studentTable) \/
  (k = "registration" /\ tableInfo = registrationTable).
Proof.
  unfold school. intros H.
  apply lookup_insert_Some in H as [[<- <-]|[_ H]]; [by left|].
  apply lookup_insert_Some in H as [[<- <-]|[_ H]]; [by right|].
  by rewrite lookup_empty in H.
Qed.

Lemma school_closed : closed school.
Proof.
  intros k ti cn c Hk Hc.
  apply school_lookup in Hk as [[-> ->]|[-> ->]]; simpl in Hc.
  - by rewrite lookup_empty in Hc.
  - apply lookup_singleton_Some in Hc as [_ <-]. split.
    + repeat constructor.
    + by exists studentTable.
Qed.

Lemma school_unresolved : unresolved school.
Proof. intros k ti Hk. by apply school_lookup in Hk as [[-> ->]|[-> ->]]. Qed.

Lemma populateReferencedByColumns_closed_witness :
  exists tables',
    populateReferencedByColumns (R := range_canonical) school = Returned tables' /\
    forall k, exists added,
      added ≡ₚ inboundOf k (outbound school) /\
      tables' !! k =
        (fun tableInfo => appendSources tableInfo added) <$> school !! k.
Proof.
  apply (populateReferencedByColumns_closed (R := range_canonical) school).
  exact school_closed.
Defined.

(** The end-to-end scenario, run: [student] gains the one reverse
    constraint, [registration] keeps [fk1] and gains nothing. *)
Example populateReferencedByColumns_school :
  (tables' ← populateReferencedByColumns (R := range_canonical) school;
   Returned (tables' !! "student", tables' !! "registration")) =
  Returned
    (Some (appendSources studentTable
             [ {| parts := [ {| tableName := "id"; columnName := "id";
                                remoteTableName := "registration";
                                remoteColumnName := "student_id" |} ] |} ]),
     Some registrationTable).
Proof. vm_compute. reflexivity. Qed.

Lemma attachReverse_doomed (tables : gmap string TableInfo) (c : ForeignKeyConstraint) :
  doomed tables c -> aborted (attachReverse tables c).
Proof.
  unfold doomed, attachReverse.
  destruct (validateAndGetReverse c) as [[r rc]| |]; simpl; [|done..].
  by intros ->.
Qed.

Lemma attachReverse_domain (tables tables' : gmap string TableInfo)
  (c : ForeignKeyConstraint) (k : string) :
  attachReverse tables c = Returned tables' ->
  tables !! k = None -> tables' !! k = None.
Proof.
  unfold attachReverse.
  destruct (validateAndGetReverse c) as [[r rc]| |]; simpl; [|done..].
  destruct (tables !! r) as [target|] eqn:Hr; [|done].
  intros [= <-] Hk. rewrite lookup_insert_ne; [done|]. congruence.
Qed.

(** A turn of the inner loop leaves the outbound constraints of every table
    as they were. *)
Lemma attachReverse_constraints (tables tables' : gmap string TableInfo)
  (c : ForeignKeyConstraint) :
  attachReverse tables c = Returned tables' ->
  foreignKeyConstraints <$> tables' = foreignKeyConstraints <$> tables.
Proof.
  unfold attachReverse.
  destruct (validateAndGetReverse c) as [[r rc]| |]; simpl; [|done..].
  destruct (tables !! r) as [target|] eqn:Hr; [|done].
  intros [= <-]. apply map_eq. intros k. rewrite !lookup_fmap.
  destruct (decide (r = k)) as [<-|Hne].
  - by rewrite lookup_insert_eq, Hr.
  - by rewrite lookup_insert_ne.
Qed.

Lemma attachLoop_doomed (cs : list ForeignKeyConstraint) (tables : gmap string TableInfo)
  (c : ForeignKeyConstraint) :
  c ∈ cs -> doomed tables c -> aborted (forEach attachReverse tables cs).
Proof.
  revert tables. induction cs as [|c0 cs IH]; intros tables Hin Hdoomed.
  - by apply elem_of_nil in Hin.
  - destruct (attachReverse tables c0) as [tables1| |] eqn:Hstep.
    + rewrite (forEach_cons_Returned _ _ _ _ _ Hstep).
      apply elem_of_cons in Hin as [->|Hin].
      * apply attachReverse_doomed in Hdoomed. by rewrite Hstep in Hdoomed.
      * apply IH; [done|]. unfold doomed in *.
        destruct (validateAndGetReverse c) as [[r rc]| |]; [|done..].
        by apply (attachReverse_domain tables tables1 c0).
    + by rewrite (forEach_cons_AssertFailed _ _ _ _ Hstep).
    + by rewrite (forEach_cons_NilDereference _ _ _ _ Hstep).
Qed.

Lemma populateReferencedByColumns_doomed `{R : GoRange}
  (tables : gmap string TableInfo) (k cn : string) (tableInfo : TableInfo)
  (c : ForeignKeyConstraint) :
  tables !! k = Some tableInfo ->
  foreignKeyConstraints tableInfo !! cn = Some c ->
  doomed tables c ->
  aborted (populateReferencedByColumns tables).
Proof.
  intros Hk Hc Hdoomed. rewrite populateReferencedByColumns_worklist.
  apply (attachLoop_doomed _ _ c); [|done].
  rewrite worklist_outbound. apply elem_of_outbound. eauto.
Qed.

(** C9: when some outbound constraint of a model points at a table that the
    model does not hold, the pass does not return: it aborts, whatever the
    order in which the tables and constraints are visited. *)
Theorem populateReferencedByColumns_missing_table `{R : GoRange}
  (tables : gmap string TableInfo) (k cn r : string) (tableInfo : TableInfo)
  (c : ForeignKeyConstraint) :
  tables !! k = Some tableInfo ->
  foreignKeyConstraints tableInfo !! cn = Some c ->
  parts c <> [] ->
  sameRemoteTable r (parts c) ->
  tables !! r = None ->
  aborted (populateReferencedByColumns tables) /\
  (populateReferencedByColumns tables = NilDereference \/
   populateReferencedByColumns tables = AssertFailed).
Proof.
  intros Hk Hc Hne Hr Hmissing.
  assert (Habort : aborted (populateReferencedByColumns tables)).
  { apply (populateReferencedByColumns_doomed tables k cn tableInfo c); [done..|].
    unfold doomed.
    rewrite (validateAndGetReverse_wellFormed c (wellFormed_shared c r Hr)).
    by rewrite (remoteTableOf_shared c r Hr Hne). }
  split; [done|].
  destruct (populateReferencedByColumns tables); [done|by right|by left].
Qed.

Lemma populateReferencedByColumns_missing_table_witness :
  aborted (populateReferencedByColumns (R := range_canonical) schoolWithoutStudent) /\
  (populateReferencedByColumns (R := range_canonical) schoolWithoutStudent
     = NilDereference \/
   populateReferencedByColumns (R := range_canonical) schoolWithoutStudent
     = AssertFailed).
Proof.
  apply (populateReferencedByColumns_missing_table (R := range_canonical)
           schoolWithoutStudent "registration" "fk1" "student" registrationTable fk1).
  - reflexivity.
  - reflexivity.
  - discriminate.
  - repeat constructor.
  - reflexivity.
Defined.

Lemma attachLoop_no_assertion (cs : list ForeignKeyConstraint)
  (tables : gmap string TableInfo) :
  Forall wellFormed cs -> forEach attachReverse tables cs <> AssertFailed.
Proof.
  intros Hcs. revert tables. induction Hcs as [|c cs Hwf _ IH]; intros tables; [done|].
  destruct (attachReverse tables c) as [tables1| |] eqn:Hstep.
  - rewrite (forEach_cons_Returned _ _ _ _ _ Hstep). apply IH.
  - unfold attachReverse in Hstep.
    rewrite (validateAndGetReverse_wellFormed c Hwf) in Hstep. simpl in Hstep.
    by destruct (tables !! remoteTableOf c).
  - by rewrite (forEach_cons_NilDereference _ _ _ _ Hstep).
Qed.

Lemma same_constraints_lookup (tables1 tables2 : gmap string TableInfo) (k : string)
  (tableInfo1 : TableInfo) :
  foreignKeyConstraints <$> tables1 = foreignKeyConstraints <$> tables2 ->
  tables1 !! k = Some tableInfo1 ->
  exists tableInfo2,
    tables2 !! k = Some tableInfo2 /\
    foreignKeyConstraints tableInfo2 = foreignKeyConstraints tableInfo1.
Proof.
  intros Heq Hk.
  assert (H : (foreignKeyConstraints <$> tables2) !! k
              = Some (foreignKeyConstraints tableInfo1)).
  { rewrite <- Heq, lookup_fmap, Hk. done. }
  rewrite lookup_fmap in H.
  destruct (tables2 !! k) as [ti2|]; [|done]. injection H as H. eauto.
Qed.

Lemma closed_same_constraints (tables1 tables2 : gmap string TableInfo) :
  foreignKeyConstraints <$> tables1 = foreignKeyConstraints <$> tables2 ->
  closed tables2 -> closed tables1.
Proof.
  intros Heq Hclosed k ti1 cn c Hk Hc.
  destruct (same_constraints_lookup _ _ _ _ Heq Hk) as (ti2 & Hk2 & Hfk).
  rewrite <- Hfk in Hc. destruct (Hclosed k ti2 cn c Hk2 Hc) as [Hwf [target Ht]].
  split; [done|].
  destruct (same_constraints_lookup tables2 tables1 _ _ (eq_sym Heq) Ht) as (t1 & -> & _).
  done.
Qed.

Lemma appended_same_constraints (tables tables' : gmap string TableInfo) :
  (forall k, exists added,
     tables' !! k = (fun tableInfo => appendSources tableInfo added) <$> tables !! k) ->
  foreignKeyConstraints <$> tables' = foreignKeyConstraints <$> tables.
Proof.
  intros H. apply map_eq. intros k. rewrite !lookup_fmap.
  destruct (H k) as [added ->]. by destruct (tables !! k).
Qed.

(** C10: the pass has no guard against a second run.  On a model as the
    builder leaves it, closed and with empty inbound lists, a first and a
    second pass both return, in whatever order each visits the model.  The
    first pass gives every table the reverses of the outbound constraints
    that point at it; the second pass appends a second copy of each of them
    after the first, so every inbound list is then twice as long as after the
    first pass. *)
Theorem populateReferencedByColumns_twice (R1 R2 : GoRange)
  (tables : gmap string TableInfo) :
  closed tables ->
  unresolved tables ->
  exists tables1 tables2,
    populateReferencedByColumns (R := R1) tables = Returned tables1 /\
    populateReferencedByColumns (R := R2) tables1 = Returned tables2 /\
    forall k tableInfo,
      tables !! k = Some tableInfo ->
      exists tableInfo1 again,
        tables1 !! k = Some tableInfo1 /\
        tableInfo1 = appendSources tableInfo (constraintSources tableInfo1) /\
        constraintSources tableInfo1 ≡ₚ inboundOf k (outbound tables) /\
        tables2 !! k = Some (appendSources tableInfo1 again) /\
        again ≡ₚ inboundOf k (outbound tables) /\
        again ≡ₚ constraintSources tableInfo1 /\
        length (constraintSources (appendSources tableInfo1 again)) =
          2 * length (constraintSources tableInfo1).
Proof.
  intros Hclosed Hfresh.
  destruct (pass_appends_inbound (R := R1) tables Hclosed)
    as (tables1 & Hrun1 & Hlookup1).
  assert (Hsame : foreignKeyConstraints <$> tables1 = foreignKeyConstraints <$> tables).
  { apply appended_same_constraints. intros k.
    destruct (Hlookup1 k) as (added & _ & ?). eauto. }
  destruct (pass_appends_inbound (R := R2) tables1
              (closed_same_constraints _ _ Hsame Hclosed))
    as (tables2 & Hrun2 & Hlookup2).
  exists tables1, tables2. split_and!; [done..|].
  intros k ti Hk.
  destruct (Hlookup1 k) as (added1 & Hperm1 & Hk1).
  destruct (Hlookup2 k) as (added2 & Hperm2 & Hk2).
  rewrite Hk in Hk1. simpl in Hk1. rewrite Hk1 in Hk2. simpl in Hk2.
  exists (appendSources ti added1), added2.
  assert (Hsources : constraintSources (appendSources ti added1) = added1).
  { simpl. by rewrite (Hfresh k ti Hk). }
  assert (Hcopy : added2 ≡ₚ inboundOf k (outbound tables)).
  { rewrite Hperm2. apply inboundOf_Permutation. by apply outbound_constraints. }
  split_and!.
  - done.
  - by rewrite Hsources.
  - by rewrite Hsources.
  - done.
  - done.
  - by rewrite Hsources, Hcopy, Hperm1.
  - simpl. rewrite !length_app, (Hfresh k ti Hk). simpl.
    assert (Hlen : length added2 = length added1) by (by rewrite Hcopy, Hperm1).
    lia.
Qed.

Lemma populateReferencedByColumns_twice_witness :
  exists tables1 tables2,
    populateReferencedByColumns (R := range_shortest_first) school = Returned tables1 /\
    populateReferencedByColumns (R := range_longest_first) tables1 = Returned tables2 /\
    forall k tableInfo,
      school !! k = Some tableInfo ->
      exists tableInfo1 again,
        tables1 !! k = Some tableInfo1 /\
        tableInfo1 = appendSources tableInfo (constraintSources tableInfo1) /\
        constraintSources tableInfo1 ≡ₚ inboundOf k (outbound school) /\
        tables2 !! k = Some (appendSources tableInfo1 again) /\
        again ≡ₚ inboundOf k (outbound school) /\
        again ≡ₚ constraintSources tableInfo1 /\
        length (constraintSources (appendSources tableInfo1 again)) =
          2 * length (constraintSources tableInfo1).
Proof.
  apply (populateReferencedByColumns_twice range_shortest_first range_longest_first school).
  - exact school_closed.
  - exact school_unresolved.
Defined.

(** ** Building one table *)

Lemma HasPrefix_app (s rest : string) : HasPrefix (s +:+ rest) s = true.
Proof.
  induction s as [|c s IH]; simpl; [done|].
  by rewrite Ascii.eqb_refl, IH.
Qed.

Lemma Contains_prefix (s sub : string) : HasPrefix s sub = true -> Contains s sub = true.
Proof. intros H. destruct s; simpl; by rewrite H. Qed.

Lemma Contains_app_l (before s sub : string) :
  Contains s sub = true -> Contains (before +:+ s) sub = true.
Proof.
  intros H. induction before as [|c before IH]; simpl; [done|].
  rewrite IH. apply orb_true_r.
Qed.

Lemma Contains_middle (before s rest : string) :
  Contains (before +:+ s +:+ rest) s = true.
Proof. apply Contains_app_l, Contains_prefix, HasPrefix_app. Qed.

Lemma Contains_end (before s : string) : Contains (before +:+ s) s = true.
Proof.
  apply Contains_app_l, Contains_prefix.
  induction s as [|c s IH]; simpl; [done|]. by rewrite Ascii.eqb_refl, IH.
Qed.

Section TableBuilderProperties.
Context `{R : GoRange}.
Variable types : gmap string DataType.

Lemma scanColumns_decoded (table : string) (cols : list ColumnOutput)
  (tableInfo : TableInfo) :
  exists tableInfo',
    scanColumns types table (inr <$> cols) tableInfo = inr tableInfo' /\
    tiTableName tableInfo' = tiTableName tableInfo /\
    referencedTables tableInfo' = referencedTables tableInfo /\
    foreignKeyConstraints tableInfo' = foreignKeyConstraints tableInfo /\
    constraintSources tableInfo' = constraintSources tableInfo.
Proof.
  revert tableInfo. induction cols as [|col cols IH]; intros ti; simpl.
  - by exists ti.
  - destruct (IH {| tiTableName := tiTableName ti;
                    columns := <[fieldName col := getColumnInfo types col]> (columns ti);
                    referencedTables := referencedTables ti;
                    foreignKeyConstraints := foreignKeyConstraints ti;
                    constraintSources := constraintSources ti |})
      as (ti' & Hscan & H1 & H2 & H3 & H4).
    by exists ti'.
Qed.

Lemma scanColumns_failed (table : string) (cols : list ColumnOutput) (err : error)
  (rest : list (error + ColumnOutput)) (tableInfo : TableInfo) :
  scanColumns types table ((inr <$> cols) ++ inl err :: rest)%list tableInfo =
    inl ("unable to scan table description result for table " +:+ table +:+
         ": " +:+ err).
Proof.
  revert tableInfo. induction cols as [|col cols IH]; intros ti; simpl; [done|].
  apply IH.
Qed.

(** The key usage loop never gets past a row that decodes: the pointer it
    dereferences is the nil one. *)
Lemma addKeyUsage_nil (table : string) (tableInfo : TableInfo)
  (row : string * string * string * string) :
  addKeyUsage table tableInfo row = NilDereference.
Proof. by destruct row as [[[columnName constraintName] referencedTableName] ?]. Qed.

(** What is left of [getTableInfo] once the column rows are decoded. *)
Lemma getTableInfo_columns_decoded (table : string) (pool : DB)
  (cols : list ColumnOutput) :
  QueryColumns pool (columnsQuery table) = inr (inr <$> cols) ->
  exists tableInfo,
    tiTableName tableInfo = table /\
    constraintSources tableInfo = [] /\
    getTableInfo types table pool =
      (match QueryKeyUsage pool (foreignKeysQuery table) with
       | inl err => Returned (None, Some err)
       | inr foreignKeyRows =>
           r ← scanKeyUsage table foreignKeyRows tableInfo;
           match r with
           | inl err => Returned (None, Some err)
           | inr tableInfo => Returned (Some tableInfo, None)
           end
       end).
Proof.
  intros Hcols. unfold getTableInfo. rewrite Hcols.
  match goal with
  | |- context [scanColumns types table _ ?t] =>
      destruct (scanColumns_decoded table cols t) as (ti & -> & Hname & _ & _ & Hsrc)
  end.
  by exists ti.
Qed.

Lemma getTableInfo_key_usage_row (table : string) (pool : DB)
  (cols : list ColumnOutput) (row : string * string * string * string)
  (rest : list (error + (string * string * string * string))) :
  QueryColumns pool (columnsQuery table) = inr (inr <$> cols) ->
  QueryKeyUsage pool (foreignKeysQuery table) = inr (inr row :: rest) ->
  getTableInfo types table pool = NilDereference.
Proof.
  intros Hcols Hkeys.
  destruct (getTableInfo_columns_decoded table pool cols Hcols) as (ti & _ & _ & ->).
  rewrite Hkeys. simpl. by rewrite addKeyUsage_nil.
Qed.

(** C8, as the code has it: a failed query makes [getTableInfo] return no
    record and the error of the query as it is; a column row, or the first
    key usage row, that fails to decode makes it return no record and an
    error whose message names the table and the cause; when both queries
    succeed, every column row decodes and there are no key usage rows, it
    returns a record and no error. *)
Theorem getTableInfo_failures (table : string) (pool : DB) :
  (forall err,
     QueryColumns pool (columnsQuery table) = inl err ->
     getTableInfo types table pool = Returned (None, Some err)) /\
  (forall cols err rest,
     QueryColumns pool (columnsQuery table) = inr ((inr <$> cols) ++ inl err :: rest)%list ->
     exists msg,
       getTableInfo types table pool = Returned (None, Some msg) /\
       msg = "unable to scan table description result for table " +:+ table +:+
             ": " +:+ err /\
       Contains msg table = true /\ Contains msg err = true) /\
  (forall cols err,
     QueryColumns pool (columnsQuery table) = inr (inr <$> cols) ->
     QueryKeyUsage pool (foreignKeysQuery table) = inl err ->
     getTableInfo types table pool = Returned (None, Some err)) /\
  (forall cols err rest,
     QueryColumns pool (columnsQuery table) = inr (inr <$> cols) ->
     QueryKeyUsage pool (foreignKeysQuery table) = inr (inl err :: rest) ->
     exists msg,
       getTableInfo types table pool = Returned (None, Some msg) /\
       msg = "unable to scan usage info for table " +:+ table +:+ ": " +:+ err /\
       Contains msg table = true /\ Contains msg err = true) /\
  (forall cols,
     QueryColumns pool (columnsQuery table) = inr (inr <$> cols) ->
     QueryKeyUsage pool (foreignKeysQuery table) = inr [] ->
     exists tableInfo,
       getTableInfo types table pool = Returned (Some tableInfo, None) /\
       tiTableName tableInfo = table /\
       constraintSources tableInfo = []).
Proof.
  split_and!.
  - intros err Hq. unfold getTableInfo. by rewrite Hq.
  - intros cols err rest Hq. eexists. unfold getTableInfo. rewrite Hq.
    rewrite scanColumns_failed. split_and!; [reflexivity..| |].
    + apply Contains_middle.
    + apply Contains_app_l, Contains_app_l, Contains_end.
  - intros cols err Hq Hk.
    destruct (getTableInfo_columns_decoded table pool cols Hq) as (ti & _ & _ & ->).
    by rewrite Hk.
  - intros cols err rest Hq Hk. eexists.
    destruct (getTableInfo_columns_decoded table pool cols Hq) as (ti & _ & _ & ->).
    rewrite Hk. simpl. split_and!; [reflexivity..| |].
    + apply Contains_middle.
    + apply Contains_app_l, Contains_app_l, Contains_end.
  - intros cols Hq Hk.
    destruct (getTableInfo_columns_decoded table pool cols Hq) as (ti & Hname & Hsrc & ->).
    rewrite Hk. simpl. by exists ti.
Qed.

End TableBuilderProperties.

Lemma getTableInfo_failures_witness :
  getTableInfo (R := range_canonical) (exampleTypes 1%Z 2%Z) "student" unreachableSource
    = Returned (None, Some "connection refused") /\
  (exists msg,
     getTableInfo (R := range_canonical) (exampleTypes 1%Z 2%Z) "student" brokenRowSource
       = Returned (None, Some msg) /\
     msg = "unable to scan table description result for table student: converting NULL to string is unsupported" /\
     Contains msg "student" = true /\
     Contains msg "converting NULL to string is unsupported" = true) /\
  (exists tableInfo,
     getTableInfo (R := range_canonical) (exampleTypes 1%Z 2%Z) "student" studentSource
       = Returned (Some tableInfo, None) /\
     tiTableName tableInfo = "student" /\
     constraintSources tableInfo = []).
Proof.
  split_and!.
  - apply (getTableInfo_failures (R := range_canonical) (exampleTypes 1%Z 2%Z)
             "student" unreachableSource).
    reflexivity.
  - apply (proj1 (proj2 (getTableInfo_failures (R := range_canonical) (exampleTypes 1%Z 2%Z)
                           "student" brokenRowSource))
             [ {| fieldName := "id"; coDataType := "int(11)"; coKeyType := "PRI" |} ]
             "converting NULL to string is unsupported" []).
    reflexivity.
  - apply (proj2 (proj2 (proj2 (proj2
             (getTableInfo_failures (R := range_canonical) (exampleTypes 1%Z 2%Z)
                "student" studentSource))))
             [ {| fieldName := "id"; coDataType := "int(11)"; coKeyType := "PRI" |} ]);
      reflexivity.
Defined.

(** C8 as stated fails: when the column query fails, the error that
    [getTableInfo] returns is the error of the query itself, which here does
    not name the table. *)
Lemma getTableInfo_query_error_unwrapped :
  getTableInfo (R := range_canonical) (exampleTypes 1%Z 2%Z) "student" unreachableSource
    = Returned (None, Some "connection refused") /\
  Contains "connection refused" "student" = false.
Proof. split; reflexivity. Qed.

(** C1 on the code: for the table [registration] with the key usage rows
    (student_id, fk1, student, id) and (course_id, fk2, course, id),
    [getTableInfo] does not return a table: the first row makes it
    dereference the nil pointer, the constraint looked up or created in the
    if statement being held by a variable of that statement only. *)
Theorem getTableInfo_registration_nil `{R : GoRange} (types : gmap string DataType) :
  getTableInfo types "registration" registrationSource = NilDereference.
Proof.
  apply (getTableInfo_key_usage_row types "registration" registrationSource
           [ {| fieldName := "student_id"; coDataType := "int(11)"; coKeyType := "MUL" |};
             {| fieldName := "course_id"; coDataType := "int(11)"; coKeyType := "MUL" |} ]
           ("student_id", "fk1", "student", "id")
           [ inr ("course_id", "fk2", "course", "id") ]);
    reflexivity.
Qed.

(** * Further properties *)

(** ** Reversal of one constraint, in full *)

Lemma reverseLoop_unnamed (ps acc : list ConstraintPart) :
  forEach reverseStep ("", acc) ps =
    match namedParts ps with
    | [] => Returned ("", (acc ++ (reversePart <$> ps))%list)
    | p :: rest =>
        if decide (Forall (fun q => remoteTableName q = remoteTableName p) rest)
        then Returned (remoteTableName p, (acc ++ (reversePart <$> ps))%list)
        else AssertFailed
    end.
Proof.
  revert acc. induction ps as [|p ps IH]; intros acc.
  - simpl. by rewrite app_nil_r.
  - rewrite (forEach_cons_Returned _ _ _ _ _ (reverseStep_first acc p)). simpl namedParts.
    destruct (decide (remoteTableName p = "")) as [Hempty|Hnamed].
    + rewrite Hempty, IH.
      destruct (namedParts ps) as [|q rest]; [|case_decide];
        by rewrite <- ?app_assoc.
    + case_decide as Hall.
      * rewrite (reverseLoop_shared (remoteTableName p) (remoteTableName p)) by auto.
        rewrite <- app_assoc. simpl. by destruct ps.
      * apply reverseLoop_mismatch; [done|]. by apply not_Forall_Exists in Hall; [|apply _].
Qed.

Lemma validateAndGetReverse_cases (c : ForeignKeyConstraint) :
  (consistent (parts c) /\
   validateAndGetReverse c = Returned (validatedName (parts c), reverseOf c)) \/
  (~ consistent (parts c) /\ validateAndGetReverse c = AssertFailed).
Proof.
  unfold validateAndGetReverse, consistent, validatedName.
  rewrite reverseLoop_unnamed.
  destruct (namedParts (parts c)) as [|p rest]; [by left|].
  case_decide; [by left|by right].
Qed.

(** X1: [validateAndGetReverse] never panics, and its assertion fails exactly
    when, past the leading parts with an empty remote table name, some part
    names another remote table than the first one does; otherwise it returns
    the remote table of that first part (the empty name if there is none)
    and one reverse part per part. *)
Theorem validateAndGetReverse_outcome (c : ForeignKeyConstraint) :
  validateAndGetReverse c <> NilDereference /\
  (validateAndGetReverse c = AssertFailed <-> ~ consistent (parts c)) /\
  (consistent (parts c) <->
   validateAndGetReverse c = Returned (validatedName (parts c), reverseOf c)).
Proof.
  destruct (validateAndGetReverse_cases c) as [[Hc ->]|[Hc ->]]; split_and!;
    try done; split; try done; intros; by exfalso.
Qed.

Lemma reversePart_twice_fixed (p : ConstraintPart) :
  reversePart (reversePart p) = p <-> selfNamed p.
Proof.
  destruct p as [t c rt rc]. unfold reversePart, selfNamed. simpl. split.
  - intros [= -> ->]. done.
  - intros [-> ->]. done.
Qed.

Lemma fmap_fixed {A : Type} (f : A -> A) (l : list A) :
  f <$> l = l <-> Forall (fun x => f x = x) l.
Proof.
  induction l as [|x l IH].
  - split; [constructor|done].
  - rewrite fmap_cons, Forall_cons. split.
    + intros [= Hx Hl]. split; [done|]. by apply IH.
    + intros [Hx Hl]. apply IH in Hl. by rewrite Hx, Hl.
Qed.

(** X2: reversing twice is not the identity in general.  For a constraint
    whose parts name one remote table and one local table, the two reversals
    return the remote table and then the local table, and the second result
    is the constraint itself exactly when every part has its column names as
    table names; otherwise the table names of the parts are lost. *)
Theorem validateAndGetReverse_round_trip (c : ForeignKeyConstraint) (r t : string) :
  sameRemoteTable r (parts c) ->
  sameLocalTable t (parts c) ->
  exists r1 c1 r2 c2,
    validateAndGetReverse c = Returned (r1, c1) /\
    validateAndGetReverse c1 = Returned (r2, c2) /\
    (parts c <> [] -> r1 = r /\ r2 = t) /\
    (c2 = c <-> Forall selfNamed (parts c)).
Proof.
  intros Hr Ht. do 4 eexists. split_and!.
  - apply (reverse_of_shared_parts c r Hr).
  - apply (reverse_of_shared_parts _ t). simpl. by apply sameRemoteTable_reversed.
  - simpl. by destruct (parts c).
  - destruct c as [ps]. simpl. split.
    + intros [= H]. rewrite <- list_fmap_compose in H. apply fmap_fixed in H.
      eapply Forall_impl; [exact H|]. intros p Hp. by apply reversePart_twice_fixed.
    + intros H. f_equal. rewrite <- list_fmap_compose. apply fmap_fixed.
      eapply Forall_impl; [exact H|]. intros p Hp. simpl.
      by apply reversePart_twice_fixed.
Qed.

Lemma validateAndGetReverse_round_trip_witness :
  exists r1 c1 r2 c2,
    validateAndGetReverse compositeKey = Returned (r1, c1) /\
    validateAndGetReverse c1 = Returned (r2, c2) /\
    (parts compositeKey <> [] -> r1 = "student" /\ r2 = "registration") /\
    (c2 = compositeKey <-> Forall selfNamed (parts compositeKey)).
Proof.
  apply (validateAndGetReverse_round_trip compositeKey "student" "registration");
    repeat constructor.
Defined.

(** ** The reverse-link pass, in full *)

Lemma attachReverse_Returned (tables tables' : gmap string TableInfo)
  (c : ForeignKeyConstraint) :
  attachReverse tables c = Returned tables' ->
  exists r reversed target,
    validateAndGetReverse c = Returned (r, reversed) /\
    tables !! r = Some target /\
    tables' = <[r := appendSources target [reversed]]> tables.
Proof.
  unfold attachReverse.
  destruct (validateAndGetReverse c) as [[r rc]| |]; simpl; [|done..].
  destruct (tables !! r) as [target|] eqn:Hr; [|done].
  intros [= <-]. by exists r, rc, target.
Qed.

Lemma attachReverse_attachable (tables : gmap string TableInfo)
  (c : ForeignKeyConstraint) :
  attachable tables c -> exists tables', attachReverse tables c = Returned tables'.
Proof.
  intros (r & rc & Hv & [target Hr]). unfold attachReverse.
  rewrite Hv. simpl. rewrite Hr. eauto.
Qed.

Lemma attachable_or_doomed (tables : gmap string TableInfo) (c : ForeignKeyConstraint) :
  attachable tables c \/ doomed tables c.
Proof.
  unfold attachable, doomed.
  destruct (validateAndGetReverse c) as [[r rc]| |]; [|by right..].
  destruct (tables !! r) as [target|] eqn:Hr; [left|by right].
  exists r, rc. by rewrite Hr.
Qed.

(** What a loop of [attachReverse] that returns has done. *)
Lemma attachLoop_Returned (cs : list ForeignKeyConstraint)
  (tables tables' : gmap string TableInfo) :
  forEach attachReverse tables cs = Returned tables' ->
  forall k, tables' !! k =
            (fun tableInfo => appendSources tableInfo (reversesInto k cs)) <$> tables !! k.
Proof.
  revert tables. induction cs as [|c cs IH]; intros tables Hrun k.
  - injection Hrun as <-. unfold reversesInto. simpl.
    destruct (tables !! k); simpl; [|done]. by rewrite appendSources_nil.
  - destruct (attachReverse tables c) as [tables1| |] eqn:Hstep;
      [|by rewrite (forEach_cons_AssertFailed _ _ _ _ Hstep) in Hrun
       |by rewrite (forEach_cons_NilDereference _ _ _ _ Hstep) in Hrun].
    rewrite (forEach_cons_Returned _ _ _ _ _ Hstep) in Hrun.
    rewrite (IH tables1 Hrun k).
    apply attachReverse_Returned in Hstep as (r & rc & target & Hv & Hr & ->).
    unfold reversesInto. simpl. rewrite Hv.
    destruct (decide (r = k)) as [<-|Hne].
    + rewrite lookup_insert_eq, Hr. simpl. by rewrite appendSources_app.
    + by rewrite lookup_insert_ne.
Qed.

Lemma attachLoop_attachable (cs : list ForeignKeyConstraint)
  (tables : gmap string TableInfo) :
  Forall (attachable tables) cs ->
  exists tables', forEach attachReverse tables cs = Returned tables'.
Proof.
  revert tables. induction cs as [|c cs IH]; intros tables Hcs; [by exists tables|].
  apply Forall_cons in Hcs as [Hc Hcs].
  destruct (attachReverse_attachable tables c Hc) as [tables1 Hstep].
  rewrite (forEach_cons_Returned _ _ _ _ _ Hstep). apply IH.
  apply attachReverse_Returned in Hstep as (r & rc & target & Hv & Hr & ->).
  eapply Forall_impl; [exact Hcs|].
  intros c' (r' & rc' & Hv' & Hsome). exists r', rc'. split; [done|].
  apply lookup_insert_is_Some. destruct (decide (r = r')); auto.
Qed.

Lemma reversesInto_Permutation (k : string) (cs1 cs2 : list ForeignKeyConstraint) :
  cs1 ≡ₚ cs2 -> reversesInto k cs1 ≡ₚ reversesInto k cs2.
Proof. intros H. unfold reversesInto. by rewrite H. Qed.

Lemma pass_Returned `{R : GoRange} (tables tables' : gmap string TableInfo) :
  populateReferencedByColumns tables = Returned tables' ->
  forall k, exists added,
    added ≡ₚ reversesInto k (outbound tables) /\
    tables' !! k = (fun tableInfo => appendSources tableInfo added) <$> tables !! k.
Proof.
  rewrite populateReferencedByColumns_worklist. intros Hrun k.
  exists (reversesInto k (worklist tables)). split.
  - apply reversesInto_Permutation, worklist_outbound.
  - by apply attachLoop_Returned.
Qed.

Lemma pass_returns_iff `{R : GoRange} (tables : gmap string TableInfo) :
  (exists tables', populateReferencedByColumns tables = Returned tables') <->
  Forall (attachable tables) (outbound tables).
Proof.
  rewrite populateReferencedByColumns_worklist, <- worklist_outbound. split.
  - intros [tables' Hrun]. apply Forall_forall. intros c Hc.
    destruct (attachable_or_doomed tables c) as [Hok|Hdoomed]; [done|].
    pose proof (attachLoop_doomed _ _ c Hc Hdoomed) as Habort.
    by rewrite Hrun in Habort.
  - apply attachLoop_attachable.
Qed.

(** X3: whenever the pass returns, on any model and in any order of visit,
    it has only appended: the model has the same tables, every table keeps
    its name, columns, referenced tables, outbound constraints and the
    inbound constraints it had, in place, and gains after them the reverse
    constraints that [validateAndGetReverse] returns for it. *)
Theorem populateReferencedByColumns_appends_only `{R : GoRange}
  (tables tables' : gmap string TableInfo) :
  populateReferencedByColumns tables = Returned tables' ->
  forall k, exists added,
    added ≡ₚ reversesInto k (outbound tables) /\
    tables' !! k = (fun tableInfo => appendSources tableInfo added) <$> tables !! k.
Proof. exact (pass_Returned tables tables'). Qed.

Lemma school_pass `{R : GoRange} :
  populateReferencedByColumns school = Returned schoolResolved.
Proof.
  destruct (attachLoop_closed (worklist school) school (closed_worklist school school_closed))
    as (tables' & Hrun & Hlookup).
  rewrite populateReferencedByColumns_worklist, Hrun. f_equal.
  apply map_eq. intros k. rewrite Hlookup.
  assert (Hin : forall k, inboundOf k (worklist school) ≡ₚ inboundOf k (outbound school))
    by (intros; apply inboundOf_Permutation, worklist_outbound).
  unfold schoolResolved.
  destruct (decide (k = "student")) as [->|Hne].
  - rewrite lookup_insert_eq.
    assert (Hone : inboundOf "student" (worklist school) = [reverseOf fk1]).
    { apply Permutation_singleton_r. rewrite Hin. by vm_compute. }
    by rewrite Hone.
  - rewrite lookup_insert_ne by done.
    assert (Hnone : inboundOf k (worklist school) = []).
    { apply Permutation_nil_r. rewrite Hin.
      unfold inboundOf. replace (outbound school) with [fk1] by (by vm_compute).
      rewrite filter_cons_False; [done|].
      change (remoteTableOf fk1) with "student". congruence. }
    rewrite Hnone. destruct (school !! k); simpl; [|done].
    by rewrite appendSources_nil.
Qed.

Lemma populateReferencedByColumns_appends_only_witness :
  exists added,
    added ≡ₚ reversesInto "student" (outbound school) /\
    schoolResolved !! "student"
      = (fun tableInfo => appendSources tableInfo added) <$> school !! "student".
Proof.
  apply (populateReferencedByColumns_appends_only (R := range_shortest_first)
           school schoolResolved).
  apply school_pass.
Defined.

(** X4: the pass returns exactly when every outbound constraint of the
    model validates and the table [validateAndGetReverse] returns for it is in
    the model; in particular whether it returns does not depend on the order
    of visit. *)
Theorem populateReferencedByColumns_returns_iff `{R : GoRange}
  (tables : gmap string TableInfo) :
  (exists tables', populateReferencedByColumns tables = Returned tables') <->
  (forall k tableInfo cn c,
     tables !! k = Some tableInfo ->
     foreignKeyConstraints tableInfo !! cn = Some c ->
     exists r reversed,
       validateAndGetReverse c = Returned (r, reversed) /\ is_Some (tables !! r)).
Proof.
  rewrite pass_returns_iff, Forall_forall. split.
  - intros Hall k ti cn c Hk Hc. apply (Hall c), elem_of_outbound.
    by exists k, ti, cn.
  - intros Hall c Hc. apply elem_of_outbound in Hc as (k & ti & cn & Hk & Hc).
    exact (Hall k ti cn c Hk Hc).
Qed.

(** X5: the order of visit only shows in the order of the appended
    constraints.  If the pass returns under one enumeration order of the
    maps, it returns under any other, and the two results give every table
    the same fields and the same appended inbound constraints up to their
    order. *)
Theorem populateReferencedByColumns_any_order (R1 R2 : GoRange)
  (tables tables1 : gmap string TableInfo) :
  populateReferencedByColumns (R := R1) tables = Returned tables1 ->
  exists tables2,
    populateReferencedByColumns (R := R2) tables = Returned tables2 /\
    forall k, exists added1 added2,
      added1 ≡ₚ added2 /\
      tables1 !! k = (fun tableInfo => appendSources tableInfo added1) <$> tables !! k /\
      tables2 !! k = (fun tableInfo => appendSources tableInfo added2) <$> tables !! k.
Proof.
  intros Hrun1.
  destruct (proj2 (pass_returns_iff (R := R2) tables)) as [tables2 Hrun2].
  { apply (pass_returns_iff (R := R1)). eauto. }
  exists tables2. split; [done|]. intros k.
  destruct (pass_Returned (R := R1) tables tables1 Hrun1 k) as (added1 & Hp1 & Hk1).
  destruct (pass_Returned (R := R2) tables tables2 Hrun2 k) as (added2 & Hp2 & Hk2).
  exists added1, added2. split_and!; [|done..]. by rewrite Hp1, Hp2.
Qed.

Lemma populateReferencedByColumns_any_order_witness :
  exists tables2,
    populateReferencedByColumns (R := range_longest_first) school = Returned tables2 /\
    forall k, exists added1 added2,
      added1 ≡ₚ added2 /\
      schoolResolved !! k = (fun tableInfo => appendSources tableInfo added1) <$> school !! k /\
      tables2 !! k = (fun tableInfo => appendSources tableInfo added2) <$> school !! k.
Proof.
  apply (populateReferencedByColumns_any_order range_shortest_first range_longest_first
           school schoolResolved).
  apply school_pass.
Defined.

Lemma inboundCount_insert (tables : gmap string TableInfo) (r : string)
  (target target' : TableInfo) :
  tables !! r = Some target ->
  inboundCount (<[r := target']> tables) + length (constraintSources target) =
    inboundCount tables + length (constraintSources target').
Proof.
  intros Hr.
  assert (H1 : map_to_list (<[r := target']> tables)
               ≡ₚ (r, target') :: map_to_list (delete r tables)).
  { rewrite <- (insert_delete_eq tables r target').
    apply map_to_list_insert, lookup_delete_eq. }
  assert (H2 : map_to_list tables ≡ₚ (r, target) :: map_to_list (delete r tables)).
  { rewrite <- (insert_delete_id tables r target Hr) at 1.
    apply map_to_list_insert, lookup_delete_eq. }
  unfold inboundCount. rewrite H1, H2. simpl. lia.
Qed.

Lemma attachLoop_count (cs : list ForeignKeyConstraint)
  (tables tables' : gmap string TableInfo) :
  forEach attachReverse tables cs = Returned tables' ->
  inboundCount tables' = inboundCount tables + length cs.
Proof.
  revert tables. induction cs as [|c cs IH]; intros tables Hrun.
  - injection Hrun as <-. simpl. lia.
  - destruct (attachReverse tables c) as [tables1| |] eqn:Hstep;
      [|by rewrite (forEach_cons_AssertFailed _ _ _ _ Hstep) in Hrun
       |by rewrite (forEach_cons_NilDereference _ _ _ _ Hstep) in Hrun].
    rewrite (forEach_cons_Returned _ _ _ _ _ Hstep) in Hrun.
    rewrite (IH tables1 Hrun).
    apply attachReverse_Returned in Hstep as (r & rc & target & Hv & Hr & ->).
    pose proof (inboundCount_insert tables r target (appendSources target [rc]) Hr) as H.
    simpl in H. rewrite length_app in H. simpl in *. lia.
Qed.

(** X6: a pass that returns has added one inbound constraint per outbound
    constraint: the inbound lists of the model, taken together, have grown by
    the number of outbound constraints of all tables. *)
Theorem populateReferencedByColumns_count `{R : GoRange}
  (tables tables' : gmap string TableInfo) :
  populateReferencedByColumns tables = Returned tables' ->
  inboundCount tables' = inboundCount tables + length (outbound tables).
Proof.
  rewrite populateReferencedByColumns_worklist. intros Hrun.
  rewrite (attachLoop_count _ _ _ Hrun). by rewrite worklist_outbound.
Qed.

Lemma populateReferencedByColumns_count_witness :
  inboundCount schoolResolved = inboundCount school + length (outbound school).
Proof.
  apply (populateReferencedByColumns_count (R := range_canonical) school schoolResolved).
  apply school_pass.
Defined.

Lemma outbound_no_constraints (tables : gmap string TableInfo) :
  (forall k tableInfo, tables !! k = Some tableInfo -> foreignKeyConstraints tableInfo = ∅) ->
  outbound tables = [].
Proof.
  intros Hnone. unfold outbound.
  assert (Hall : Forall (fun kv : string * TableInfo => foreignKeyConstraints kv.2 = ∅)
                   (map_to_list tables)).
  { apply Forall_forall. intros [k ti] Hin. apply elem_of_map_to_list in Hin.
    simpl. eauto. }
  induction Hall as [|kv l Hkv _ IH]; [done|].
  by rewrite bind_cons, IH, Hkv, map_to_list_empty.
Qed.

Lemma pass_no_constraints `{R : GoRange} (tables : gmap string TableInfo) :
  (forall k tableInfo, tables !! k = Some tableInfo -> foreignKeyConstraints tableInfo = ∅) ->
  populateReferencedByColumns tables = Returned tables.
Proof.
  intros Hnone. rewrite populateReferencedByColumns_worklist.
  assert (Hw : worklist tables = []).
  { apply Permutation_nil_r. by rewrite worklist_outbound, outbound_no_constraints. }
  by rewrite Hw.
Qed.

(** X7: a model in which no table has an outbound constraint, the empty
    model included, comes back from the pass as it went in. *)
Theorem populateReferencedByColumns_no_constraints `{R : GoRange}
  (tables : gmap string TableInfo) :
  (forall k tableInfo, tables !! k = Some tableInfo -> foreignKeyConstraints tableInfo = ∅) ->
  populateReferencedByColumns tables = Returned tables.
Proof. exact (pass_no_constraints tables). Qed.

Lemma builtModel_lookup (k : string) (tableInfo : TableInfo) :
  builtModel !! k = Some tableInfo -> k = "student" /\ tableInfo = builtStudent.
Proof.
  unfold builtModel. intros H.
  apply lookup_insert_Some in H as [[<- <-]|[_ H]]; [done|].
  by rewrite lookup_empty in H.
Qed.

Lemma populateReferencedByColumns_no_constraints_witness :
  populateReferencedByColumns (R := range_canonical) builtModel = Returned builtModel.
Proof.
  apply (populateReferencedByColumns_no_constraints (R := range_canonical) builtModel).
  intros k ti Hk. by apply builtModel_lookup in Hk as [-> ->].
Defined.

(** ** Building one table, in full *)

Section TableBuilderFurther.
Context `{R : GoRange}.
Variable types : gmap string DataType.

Lemma name_getColumnInfo (columnOutput : ColumnOutput) :
  name (getColumnInfo types columnOutput) = fieldName columnOutput.
Proof.
  unfold getColumnInfo.
  by destruct (String.eqb (coKeyType columnOutput) "PRI"),
              (String.eqb (coKeyType columnOutput) "MUL").
Qed.

Lemma scanColumns_inr (table : string) (rows : list (error + ColumnOutput))
  (tableInfo tableInfo' : TableInfo) :
  scanColumns types table rows tableInfo = inr tableInfo' ->
  exists cols,
    rows = inr <$> cols /\
    columns tableInfo' = withColumns types (columns tableInfo) cols /\
    tiTableName tableInfo' = tiTableName tableInfo /\
    referencedTables tableInfo' = referencedTables tableInfo /\
    foreignKeyConstraints tableInfo' = foreignKeyConstraints tableInfo /\
    constraintSources tableInfo' = constraintSources tableInfo.
Proof.
  revert tableInfo. induction rows as [|[err|col] rows IH]; intros ti Hscan.
  - injection Hscan as <-. by exists [].
  - done.
  - simpl in Hscan. apply IH in Hscan as (cols & -> & Hcols & H1 & H2 & H3 & H4).
    by exists (col :: cols).
Qed.

Lemma scanColumns_inl (table : string) (rows : list (error + ColumnOutput))
  (tableInfo : TableInfo) (msg : error) :
  scanColumns types table rows tableInfo = inl msg ->
  exists cols err rest, rows = ((inr <$> cols) ++ inl err :: rest)%list.
Proof.
  revert tableInfo. induction rows as [|[err|col] rows IH]; intros ti Hscan.
  - done.
  - by exists [], err, rows.
  - simpl in Hscan. apply IH in Hscan as (cols & err & rest & ->).
    by exists (col :: cols), err, rest.
Qed.

Lemma withColumns_other (m : gmap string ColumnInfo) (cols : list ColumnOutput)
  (k : string) :
  Forall (fun co => fieldName co <> k) cols -> withColumns types m cols !! k = m !! k.
Proof.
  intros Hcols. revert m. induction Hcols as [|co cols Hco _ IH]; intros m; [done|].
  unfold withColumns in *. simpl. rewrite IH. by rewrite lookup_insert_ne.
Qed.

Lemma withColumns_last (m : gmap string ColumnInfo)
  (before after : list ColumnOutput) (co : ColumnOutput) :
  Forall (fun co' => fieldName co' <> fieldName co) after ->
  withColumns types m (before ++ co :: after)%list !! fieldName co
    = Some (getColumnInfo types co).
Proof.
  intros Hafter. unfold withColumns. rewrite foldl_app. simpl.
  etrans; [exact (withColumns_other _ after (fieldName co) Hafter)|].
  apply lookup_insert_eq.
Qed.

Lemma withColumns_lookup (m : gmap string ColumnInfo) (cols : list ColumnOutput)
  (k : string) (ci : ColumnInfo) :
  withColumns types m cols !! k = Some ci ->
  m !! k = Some ci \/
  exists co, co ∈ cols /\ fieldName co = k /\ ci = getColumnInfo types co.
Proof.
  revert m. induction cols as [|co cols IH]; intros m Hk; [by left|].
  unfold withColumns in *. simpl in Hk. apply IH in Hk as [Hk|(co' & Hin & Hf & Hci)].
  - apply lookup_insert_Some in Hk as [[<- <-]|[_ Hk]]; [|by left].
    right. exists co. split; [left|done].
  - right. exists co'. split; [by right|done].
Qed.

(** The endings of [getTableInfo], by what the source answers. *)
Lemma getTableInfo_cases (table : string) (pool : DB) :
  (getTableInfo types table pool = NilDereference /\
   exists cols row rest,
     QueryColumns pool (columnsQuery table) = inr (inr <$> cols) /\
     QueryKeyUsage pool (foreignKeysQuery table) = inr (inr row :: rest)) \/
  (exists err, getTableInfo types table pool = Returned (None, Some err)) \/
  (exists cols tableInfo,
     QueryColumns pool (columnsQuery table) = inr (inr <$> cols) /\
     QueryKeyUsage pool (foreignKeysQuery table) = inr [] /\
     getTableInfo types table pool = Returned (Some tableInfo, None) /\
     tiTableName tableInfo = table /\
     columns tableInfo = withColumns types ∅ cols /\
     referencedTables tableInfo = ∅ /\
     foreignKeyConstraints tableInfo = ∅ /\
     constraintSources tableInfo = []).
Proof.
  unfold getTableInfo.
  destruct (QueryColumns pool (columnsQuery table)) as [err|rows] eqn:Hq;
    [right; left; eauto|].
  match goal with |- context [scanColumns types table rows ?t] =>
    destruct (scanColumns types table rows t) as [err|ti] eqn:Hscan end;
    [right; left; eauto|].
  apply scanColumns_inr in Hscan as (cols & -> & Hcols & Hname & Href & Hfk & Hsrc).
  simpl in *.
  destruct (QueryKeyUsage pool (foreignKeysQuery table)) as [err|[|[err|row] rest]] eqn:Hk.
  - right; left; eauto.
  - right; right. exists cols, ti. by split_and!.
  - right; left. simpl. eauto.
  - left. simpl. rewrite addKeyUsage_nil. split; [done|]. by exists cols, row, rest.
Qed.

(** X8: [getTableInfo] is all or nothing.  It panics, or returns an error
    and no record, or returns a record and no error; it never fails an
    assertion, and a record it returns carries the table name and has no
    referenced table, no outbound constraint and no inbound constraint. *)
Theorem getTableInfo_all_or_nothing (table : string) (pool : DB) :
  getTableInfo types table pool = NilDereference \/
  (exists err, getTableInfo types table pool = Returned (None, Some err)) \/
  (exists tableInfo,
     getTableInfo types table pool = Returned (Some tableInfo, None) /\
     tiTableName tableInfo = table /\
     referencedTables tableInfo = ∅ /\
     foreignKeyConstraints tableInfo = ∅ /\
     constraintSources tableInfo = []).
Proof.
  destruct (getTableInfo_cases table pool)
    as [[Hnil _]|[Herr|(cols & ti & _ & _ & Hret & Hname & _ & Href & Hfk & Hsrc)]];
    [by left|by right; left|].
  right; right. by exists ti.
Qed.

(** X9: [getTableInfo] panics exactly when both queries succeed, every
    column row decodes and the first key usage row decodes: that is, for
    every table whose foreign keys the source reports. *)
Theorem getTableInfo_panics_iff (table : string) (pool : DB) :
  getTableInfo types table pool = NilDereference <->
  exists cols row rest,
    QueryColumns pool (columnsQuery table) = inr (inr <$> cols) /\
    QueryKeyUsage pool (foreignKeysQuery table) = inr (inr row :: rest).
Proof.
  split.
  - intros Hnil.
    destruct (getTableInfo_cases table pool)
      as [[_ H]|[[err Herr]|(cols & ti & _ & _ & Hret & _)]]; [done|congruence..].
  - intros (cols & row & rest & Hq & Hk).
    by apply (getTableInfo_key_usage_row types table pool cols row rest).
Qed.

(** X10: for a table without key usage rows whose column rows all decode,
    the record returned holds the columns by name.  Every entry of the column
    map is the [getColumnInfo] of a row with that field name and carries that
    name; every row is represented; of several rows with one field name the
    last one stays. *)
Theorem getTableInfo_columns (table : string) (pool : DB) (cols : list ColumnOutput) :
  QueryColumns pool (columnsQuery table) = inr (inr <$> cols) ->
  QueryKeyUsage pool (foreignKeysQuery table) = inr [] ->
  exists tableInfo,
    getTableInfo types table pool = Returned (Some tableInfo, None) /\
    (forall k ci,
       columns tableInfo !! k = Some ci ->
       name ci = k /\
       exists co, co ∈ cols /\ fieldName co = k /\ ci = getColumnInfo types co) /\
    (forall before co after,
       cols = (before ++ co :: after)%list ->
       Forall (fun co' => fieldName co' <> fieldName co) after ->
       columns tableInfo !! fieldName co = Some (getColumnInfo types co)).
Proof.
  intros Hq Hk.
  destruct (getTableInfo_cases table pool)
    as [[_ (cols' & row & rest & _ & Hk')]|[[err Herr]|(cols' & ti & Hq' & _ & Hret & _ & Hcols & _)]].
  - congruence.
  - destruct (getTableInfo_columns_decoded types table pool cols Hq) as (ti & _ & _ & Hrun).
    rewrite Hk in Hrun. simpl in Hrun. congruence.
  - assert (cols' = cols) as ->.
    { rewrite Hq in Hq'. injection Hq' as Hq'.
      by apply (inj (fmap inr)) in Hq'. }
    exists ti. split_and!; [done| |].
    + intros k ci Hci. rewrite Hcols in Hci.
      apply withColumns_lookup in Hci as [Hci|(co & Hin & Hf & ->)];
        [by rewrite lookup_empty in Hci|].
      split; [by rewrite name_getColumnInfo|by exists co].
    + intros before co after -> Hafter. rewrite Hcols. by apply withColumns_last.
Qed.

End TableBuilderFurther.

Lemma studentSource_built :
  getTableInfo (R := range_canonical) (exampleTypes 1%Z 2%Z) "student" studentSource
    = Returned (Some builtStudent, None).
Proof. reflexivity. Qed.

Lemma getTableInfo_columns_witness :
  exists tableInfo,
    getTableInfo (R := range_canonical) (exampleTypes 1%Z 2%Z) "student" studentSource
      = Returned (Some tableInfo, None) /\
    (forall k ci,
       columns tableInfo !! k = Some ci ->
       name ci = k /\
       exists co,
         co ∈ [ {| fieldName := "id"; coDataType := "int(11)"; coKeyType := "PRI" |} ] /\
         fieldName co = k /\
         ci = getColumnInfo (R := range_canonical) (exampleTypes 1%Z 2%Z) co) /\
    (forall before co after,
       [ {| fieldName := "id"; coDataType := "int(11)"; coKeyType := "PRI" |} ]
         = (before ++ co :: after)%list ->
       Forall (fun co' => fieldName co' <> fieldName co) after ->
       columns tableInfo !! fieldName co
         = Some (getColumnInfo (R := range_canonical) (exampleTypes 1%Z 2%Z) co)).
Proof.
  apply (getTableInfo_columns (R := range_canonical) (exampleTypes 1%Z 2%Z)
           "student" studentSource); reflexivity.
Defined.

(** ** Building, then resolving *)

(** X11: a model made of records that [getTableInfo] returned comes back
    from the pass unchanged, with every inbound list still empty: the builder
    returns no record that has an outbound constraint. *)
Theorem getTableInfo_then_populate (R1 R2 : GoRange) (types : gmap string DataType)
  (tables : gmap string TableInfo) :
  (forall k tableInfo,
     tables !! k = Some tableInfo ->
     exists table pool,
       getTableInfo (R := R1) types table pool = Returned (Some tableInfo, None)) ->
  populateReferencedByColumns (R := R2) tables = Returned tables /\
  forall k tableInfo, tables !! k = Some tableInfo -> constraintSources tableInfo = [].
Proof.
  intros Hbuilt.
  assert (Hfields : forall k ti, tables !! k = Some ti ->
            foreignKeyConstraints ti = ∅ /\ constraintSources ti = []).
  { intros k ti Hk. destruct (Hbuilt k ti Hk) as (table & pool & Hret).
    destruct (getTableInfo_cases (R := R1) types table pool)
      as [[Hnil _]|[[err Herr]|(cols & ti' & _ & _ & Hret' & _ & _ & _ & Hfk & Hsrc)]];
      [congruence..|].
    rewrite Hret in Hret'. by injection Hret' as ->. }
  split.
  - apply pass_no_constraints. intros k ti Hk. by apply (Hfields k ti).
  - intros k ti Hk. by apply (Hfields k ti).
Qed.

Lemma getTableInfo_then_populate_witness :
  populateReferencedByColumns (R := range_longest_first) builtModel = Returned builtModel /\
  forall k tableInfo, builtModel !! k = Some tableInfo -> constraintSources tableInfo = [].
Proof.
  apply (getTableInfo_then_populate range_canonical range_longest_first
           (exampleTypes 1%Z 2%Z) builtModel).
  intros k ti Hk. apply builtModel_lookup in Hk as [-> ->].
  exists "student", studentSource. exact studentSource_built.
Defined.

(** ** Type resolution on consistent lookup tables *)

Lemma HasPrefix_comparable (s p1 p2 : string) :
  HasPrefix s p1 = true -> HasPrefix s p2 = true ->
  HasPrefix p2 p1 = true \/ HasPrefix p1 p2 = true.
Proof.
  revert s p2. induction p1 as [|c p1 IH]; intros s p2 H1 H2; [by left|].
  destruct p2 as [|d p2]; [by right|].
  destruct s as [|e s]; [done|]. simpl in *.
  apply andb_true_iff in H1 as [Hc H1]. apply andb_true_iff in H2 as [Hd H2].
  apply Ascii.eqb_eq in Hc as ->. apply Ascii.eqb_eq in Hd as ->.
  rewrite Ascii.eqb_refl. simpl. by apply (IH s).
Qed.

Lemma firstPrefix_consistent `{R : GoRange} (table : gmap string DataType) (s : string) :
  prefixConsistent table ->
  firstPrefix s (range table) 0%Z = longestPrefixMatch table s.
Proof.
  intros Hcons.
  destruct (decide (Exists (fun e : string * DataType => HasPrefix s e.1 = true)
                      (range table))) as [Hex|Hno].
  - destruct (firstPrefix_match s (range table) 0%Z Hex) as (p1 & Hin1 & Hs1).
    apply elem_of_range in Hin1.
    destruct (longestPrefixMatch_match table s p1 _ Hin1 Hs1) as (p2 & Hin2 & Hs2 & _).
    destruct (HasPrefix_comparable s p1 p2 Hs1 Hs2) as [H|H].
    + by apply (Hcons p1 p2).
    + symmetry. by apply (Hcons p2 p1).
  - apply not_Exists_Forall in Hno; [|apply _].
    rewrite firstPrefix_no_match.
    + symmetry. apply longestPrefixMatch_no_match. intros p v Hp.
      rewrite Forall_forall in Hno. apply elem_of_range in Hp.
      specialize (Hno (p, v) Hp). simpl in Hno. by destruct (HasPrefix s p).
    + eapply Forall_impl; [exact Hno|]. intros [p v] Hp. simpl in *.
      by destruct (HasPrefix s p).
Qed.

(** X12: when any two prefixes of the lookup table of which one starts with
    the other carry the same type, the type that [getColumnInfo] resolves is
    the longest-prefix match, whatever the order in which the table is
    enumerated. *)
Theorem getColumnInfo_prefix_consistent `{R : GoRange}
  (table : gmap string DataType) (columnOutput : ColumnOutput) :
  prefixConsistent table ->
  dataType (getColumnInfo table columnOutput)
    = longestPrefixMatch table (coDataType columnOutput).
Proof.
  intros Hcons. rewrite dataType_getColumnInfo. by apply firstPrefix_consistent.
Qed.

Lemma exampleTypes_consistent (String Integer : DataType) :
  prefixConsistent (exampleTypes String Integer).
Proof.
  unfold exampleTypes. intros p1 p2 v1 v2 H1 H2 Hp.
  apply lookup_insert_Some in H1 as [[<- <-]|[_ H1]];
    [|apply lookup_insert_Some in H1 as [[<- <-]|[_ H1]];
      [|by rewrite lookup_empty in H1]];
    (apply lookup_insert_Some in H2 as [[<- <-]|[_ H2]];
     [|apply lookup_insert_Some in H2 as [[<- <-]|[_ H2]];
       [|by rewrite lookup_empty in H2]]);
    done.
Qed.

Lemma getColumnInfo_prefix_consistent_witness :
  dataType (getColumnInfo (R := range_shortest_first) (exampleTypes 1%Z 2%Z)
              (columnOfType "int(11)"))
    = longestPrefixMatch (exampleTypes 1%Z 2%Z) (coDataType (columnOfType "int(11)")).
Proof.
  apply (getColumnInfo_prefix_consistent (R := range_shortest_first)
           (exampleTypes 1%Z 2%Z) (columnOfType "int(11)")).
  apply exampleTypes_consistent.
Defined.

(** ** Passes that change nothing *)

(** X13: a pass that returns leaves the model as it was exactly when the
    model has no outbound constraint at all; as soon as there is one, the
    pass has changed some inbound list, also on a model that an earlier pass
    has resolved. *)
Theorem populateReferencedByColumns_unchanged_iff `{R : GoRange}
  (tables tables' : gmap string TableInfo) :
  populateReferencedByColumns tables = Returned tables' ->
  (tables' = tables <-> outbound tables = []).
Proof.
  rewrite populateReferencedByColumns_worklist. intros Hrun. split.
  - intros ->. apply attachLoop_count in Hrun.
    apply nil_length_inv. rewrite <- worklist_outbound. lia.
  - intros Hnone.
    assert (Hw : worklist tables = [])
      by (apply Permutation_nil_r; by rewrite worklist_outbound, Hnone).
    rewrite Hw in Hrun. by injection Hrun.
Qed.

Lemma populateReferencedByColumns_unchanged_iff_witness :
  schoolResolved = school <-> outbound school = [].
Proof.
  apply (populateReferencedByColumns_unchanged_iff (R := range_canonical)
           school schoolResolved).
  apply school_pass.
Defined.

(** ** Constraints that name two remote tables *)

Lemma elem_of_namedParts (ps : list ConstraintPart) (p : ConstraintPart) :
  p ∈ ps -> remoteTableName p <> "" -> p ∈ namedParts ps.
Proof.
  intros Hin Hnamed. induction ps as [|q ps IH]; [done|]. simpl.
  destruct (decide (remoteTableName q = "")) as [Hq|Hq]; [|done].
  apply elem_of_cons in Hin as [->|Hin]; [done|]. by apply IH.
Qed.

Lemma two_names_inconsistent (ps : list ConstraintPart) (p q : ConstraintPart) :
  p ∈ ps -> q ∈ ps ->
  remoteTableName p <> "" -> remoteTableName q <> "" ->
  remoteTableName p <> remoteTableName q ->
  ~ consistent ps.
Proof.
  intros Hp Hq Hpn Hqn Hpq Hcons.
  apply elem_of_namedParts in Hp; [|done]. apply elem_of_namedParts in Hq; [|done].
  unfold consistent in Hcons. destruct (namedParts ps) as [|h rest].
  - by apply elem_of_nil in Hp.
  - rewrite Forall_forall in Hcons.
    assert (Hsame : forall x, x ∈ h :: rest -> remoteTableName x = remoteTableName h).
    { intros x Hx. apply elem_of_cons in Hx as [->|Hx]; [done|]. by apply Hcons. }
    apply Hpq. by rewrite (Hsame p Hp), (Hsame q Hq).
Qed.

Lemma validateAndGetReverse_two_names (c : ForeignKeyConstraint) (p q : ConstraintPart) :
  p ∈ parts c -> q ∈ parts c ->
  remoteTableName p <> "" -> remoteTableName q <> "" ->
  remoteTableName p <> remoteTableName q ->
  validateAndGetReverse c = AssertFailed.
Proof.
  intros Hp Hq Hpn Hqn Hpq.
  destruct (validateAndGetReverse_cases c) as [[Hcons _]|[_ Hfail]]; [|done].
  by destruct (two_names_inconsistent (parts c) p q).
Qed.

Lemma attachReverse_AssertFailed (tables : gmap string TableInfo)
  (c : ForeignKeyConstraint) :
  validateAndGetReverse c = AssertFailed -> attachReverse tables c = AssertFailed.
Proof. intros H. unfold attachReverse. by rewrite H. Qed.

(** A loop of [attachReverse] in which no constraint points at a missing
    table and one constraint fails its validation ends in the assertion. *)
Lemma attachLoop_AssertFailed (cs : list ForeignKeyConstraint)
  (tables : gmap string TableInfo) (c : ForeignKeyConstraint) :
  c ∈ cs ->
  validateAndGetReverse c = AssertFailed ->
  Forall (fun c' => forall r reversed,
            validateAndGetReverse c' = Returned (r, reversed) ->
            is_Some (tables !! r)) cs ->
  forEach attachReverse tables cs = AssertFailed.
Proof.
  intros Hin Hfail. revert tables.
  induction cs as [|c0 cs IH]; intros tables Hpresent; [by apply elem_of_nil in Hin|].
  apply Forall_cons in Hpresent as [Hc0 Hpresent].
  destruct (validateAndGetReverse_cases c0) as [[_ Hret]|[_ Hfail0]].
  - destruct (Hc0 _ _ Hret) as [target Hr].
    assert (Hstep : attachReverse tables c0 =
              Returned (<[validatedName (parts c0) :=
                           appendSources target [reverseOf c0]]> tables)).
    { unfold attachReverse. rewrite Hret. simpl. by rewrite Hr. }
    rewrite (forEach_cons_Returned _ _ _ _ _ Hstep).
    apply elem_of_cons in Hin as [->|Hin]; [congruence|].
    apply IH; [done|]. eapply Forall_impl; [exact Hpresent|].
    intros c' Hc' r rc Hv. apply lookup_insert_is_Some.
    destruct (decide (validatedName (parts c0) = r)); eauto.
  - apply forEach_cons_AssertFailed. by apply attachReverse_AssertFailed.
Qed.

(** C3: a constraint in which two parts name different remote tables fails
    the assertion of [validateAndGetReverse] instead of being reversed, and so
    does the turn of the pass on it; a pass over a model that holds it never
    returns, and ends in the assertion when no constraint of the model points
    at a missing table.  A constraint whose parts all name the same remote
    table is reversed without the assertion firing, and a pass over a model
    of such constraints never fails the assertion. *)
Theorem validateAndGetReverse_assertion :
  (forall (c : ForeignKeyConstraint) p q,
     p ∈ parts c -> q ∈ parts c ->
     remoteTableName p <> "" -> remoteTableName q <> "" ->
     remoteTableName p <> remoteTableName q ->
     validateAndGetReverse c = AssertFailed /\
     (forall tables, attachReverse tables c = AssertFailed) /\
     forall (R : GoRange) (tables : gmap string TableInfo) k cn tableInfo,
       tables !! k = Some tableInfo ->
       foreignKeyConstraints tableInfo !! cn = Some c ->
       aborted (populateReferencedByColumns tables) /\
       ((forall k' tableInfo' cn' c' r reversed,
           tables !! k' = Some tableInfo' ->
           foreignKeyConstraints tableInfo' !! cn' = Some c' ->
           validateAndGetReverse c' = Returned (r, reversed) ->
           is_Some (tables !! r)) ->
        populateReferencedByColumns tables = AssertFailed)) /\
  (forall (c : ForeignKeyConstraint) r,
     sameRemoteTable r (parts c) ->
     exists reversed, validateAndGetReverse c = Returned reversed) /\
  (forall (R : GoRange) (tables : gmap string TableInfo),
     (forall k tableInfo cn c,
        tables !! k = Some tableInfo ->
        foreignKeyConstraints tableInfo !! cn = Some c ->
        exists r, sameRemoteTable r (parts c)) ->
     populateReferencedByColumns tables <> AssertFailed).
Proof.
  split_and!.
  - intros c p q Hp Hq Hpn Hqn Hpq.
    pose proof (validateAndGetReverse_two_names c p q Hp Hq Hpn Hqn Hpq) as Hfail.
    split_and!; [done|by intros; apply attachReverse_AssertFailed|].
    intros R tables k cn ti Hk Hc. split.
    + apply (populateReferencedByColumns_doomed tables k cn ti c); [done..|].
      unfold doomed. by rewrite Hfail.
    + intros Hpresent. rewrite populateReferencedByColumns_worklist.
      apply (attachLoop_AssertFailed _ _ c); [|done|].
      * rewrite worklist_outbound. apply elem_of_outbound. by exists k, ti, cn.
      * apply Forall_forall. intros c' Hc' r rc Hv.
        rewrite worklist_outbound in Hc'.
        apply elem_of_outbound in Hc' as (k' & ti' & cn' & Hk' & Hcn').
        by apply (Hpresent k' ti' cn' c' r rc).
  - intros c r Hr. rewrite (reverse_of_shared_parts c r Hr). eauto.
  - intros R tables Hall. rewrite populateReferencedByColumns_worklist.
    apply attachLoop_no_assertion, Forall_forall. intros c Hc.
    rewrite worklist_outbound in Hc.
    apply elem_of_outbound in Hc as (k & ti & cn & Hk & Hcn).
    destruct (Hall k ti cn c Hk Hcn) as [r Hr]. by apply (wellFormed_shared c r).
Qed.

Lemma validateAndGetReverse_assertion_witness :
  (validateAndGetReverse twoRemotes = AssertFailed /\
   populateReferencedByColumns (R := range_canonical) twoRemotesModel = AssertFailed) /\
  exists reversed, validateAndGetReverse compositeKey = Returned reversed.
Proof.
  destruct validateAndGetReverse_assertion as (Hfail & Hpass & _). split.
  - destruct (Hfail twoRemotes
                {| tableName := "student"; columnName := "student_id";
                   remoteTableName := "student"; remoteColumnName := "id" |}
                {| tableName := "course"; columnName := "course_id";
                   remoteTableName := "course"; remoteColumnName := "id" |})
      as (Hv & _ & Hrun).
    + left.
    + right; left.
    + discriminate.
    + discriminate.
    + discriminate.
    + split; [exact Hv|].
      apply (Hrun range_canonical twoRemotesModel "registration" "fk" twoRemotesTable).
      * reflexivity.
      * reflexivity.
      * intros k' ti' cn' c' r rc Hk' Hc' Hv'.
        unfold twoRemotesModel in Hk'.
        apply lookup_insert_Some in Hk' as [[<- <-]|[_ Hk']];
          [|by rewrite lookup_empty in Hk'].
        simpl in Hc'. apply lookup_singleton_Some in Hc' as [_ <-].
        rewrite Hv in Hv'. discriminate.
  - apply (Hpass compositeKey "student"). repeat constructor.
Defined.
